(** * VANET Guardian: secure routing and its crypto envelope

    A shallow embedding of [src/crypto/crypto-module.cpp] and
    [src/routing/secure-routing.cpp].

    - Fixed-width integers are [Z] with the wrap-around written out
      ([u64], [u32]).
    - C++ [double] is IEEE 754 binary64 with round-to-nearest-even, which
      is what the kernel's primitive [float] computes.
    - [std::map<std::string, T>] is [gmap string T].
    - OpenSSL, the member functions that the header declares but no
      source file defines, and the contents of uninitialised locals are
      collected in the record [Externals].
    - The clock is read once per public call and passed as [now].
    - A [time_point] is its [int64_t] tick count; differences and sums of
      time points wrap around as the two's-complement machine arithmetic
      of the targets does ([i64], [time_add]). *)

From Stdlib Require Import ZArith List Bool Lia.
From Stdlib Require Import Floats.
From stdpp Require Import gmap strings.

Local Open Scope Z_scope.
Set Warnings "-inexact-float".

(** ** Machine integers and bytes *)

Definition u64 (z : Z) : Z := z mod 2 ^ 64.
Definition u32 (z : Z) : Z := z mod 2 ^ 32.

(** A byte is a [Z] in [0, 256); a buffer is a list of bytes. *)
Abbreviation bytes := (list Z).

(** The object representation of an [n]-byte integer, least significant
    byte first (the targets of the repository are little-endian). *)
Definition le_bytes (n : nat) (z : Z) : bytes :=
  map (fun i : nat => (z / 2 ^ (8 * Z.of_nat i)) mod 256) (seq 0 n).

Definition string_bytes (s : string) : bytes :=
  map (fun c => Z.of_N (Ascii.N_of_ascii c)) (String.list_ascii_of_string s).

(** ** crypto-module.cpp *)

Module Crypto.

(** Constants for security parameters. *)
Definition MAX_MESSAGE_HISTORY : Z := 1000.
Definition MESSAGE_TIMEOUT : Z := 5000.
Definition MIN_KEY_SIZE : Z := 2048.
Definition MAX_CERT_CHAIN : Z := 5.

Inductive HashAlgorithm := SHA256 | MD5 | SHA1 | BLAKE2B | SHA3_256.
Inductive SignatureAlgorithm := RSA_PSS | ECDSA.

Record Certificate := {
  subject : string;
  issuer : string;
  cert_publicKey : bytes;
  cert_signature : bytes;
  validFrom : Z;
  validUntil : Z
}.

(** [Certificate{}]: every member value-initialised. *)
Definition Certificate_empty : Certificate :=
  {| subject := ""; issuer := ""; cert_publicKey := []; cert_signature := [];
     validFrom := 0; validUntil := 0 |}.

(** An [EVP_PKEY*] that is not null. *)
Definition EVP_PKEY := nat.

(** What the module takes from outside its two source files. *)
Record Externals := {
  (** [EVP_PKEY_CTX_new_id] .. [EVP_PKEY_keygen]: [None] when any step fails. *)
  EVP_PKEY_keygen : SignatureAlgorithm -> option EVP_PKEY;
  (** [EVP_DigestInit_ex] .. [EVP_DigestFinal_ex]. *)
  EVP_Digest : HashAlgorithm -> bytes -> bytes;
  (** [EVP_DigestSignInit] .. [EVP_DigestSignFinal]: [None] when a step fails. *)
  EVP_DigestSign : EVP_PKEY -> bytes -> option bytes;
  (** [d2i_PUBKEY]: [None] for a null result. *)
  d2i_PUBKEY : bytes -> option EVP_PKEY;
  (** [EVP_DigestVerifyInit] .. [EVP_DigestVerifyFinal], all three [> 0]. *)
  EVP_DigestVerify : EVP_PKEY -> bytes -> bytes -> bool;
  (** [d2i_X509] returned a certificate. *)
  d2i_X509 : bytes -> bool;
  (** [CryptoModule::verifyCertificate], declared in crypto-module.h and
      defined in no source file. *)
  verifyCertificate : Certificate -> bool;
  (** The contents of an uninitialised [double]. *)
  indeterminate_double : float
}.

Record SecureMessage := {
  payload : bytes;
  signature : bytes;
  timestamp : Z;        (* uint64_t *)
  sequenceNumber : Z;   (* uint32_t *)
  senderCert : bytes
}.

(** [SecureMessage{}]. *)
Definition SecureMessage_empty : SecureMessage :=
  {| payload := []; signature := []; timestamp := 0; sequenceNumber := 0;
     senderCert := [] |}.

Record MessageHistory := {
  h_timestamp : Z;
  h_sequenceNumber : Z;
  messageHash : bytes
}.

Record CryptoModule := {
  privateKey : option EVP_PKEY;
  publicKey : option EVP_PKEY;
  certificate : option bytes;   (* the DER bytes [i2d_X509] yields *)
  messageHistory : list MessageHistory
}.

(** [CryptoModule::CryptoModule()]. *)
Definition CryptoModule_new : CryptoModule :=
  {| privateKey := None; publicKey := None; certificate := None;
     messageHistory := [] |}.

Definition set_privateKey (k : option EVP_PKEY) (c : CryptoModule) : CryptoModule :=
  {| privateKey := k; publicKey := publicKey c; certificate := certificate c;
     messageHistory := messageHistory c |}.

Definition set_messageHistory (h : list MessageHistory) (c : CryptoModule) : CryptoModule :=
  {| privateKey := privateKey c; publicKey := publicKey c;
     certificate := certificate c; messageHistory := h |}.

Section WithExternals.
Variable E : Externals.

(** [generateKeyPair]: the key is replaced only when every step succeeded. *)
Definition generateKeyPair (algo : SignatureAlgorithm) (c : CryptoModule)
  : bool * CryptoModule :=
  match EVP_PKEY_keygen E algo with
  | None => (false, c)
  | Some key => (true, set_privateKey (Some key) c)
  end.

Definition hashMessage (message : bytes) (algo : HashAlgorithm) : bytes :=
  EVP_Digest E algo message.

(** [signMessage]: [None] stands for a thrown [std::runtime_error]. *)
Definition signMessage (c : CryptoModule) (message : bytes) : option bytes :=
  match privateKey c with
  | None => None
  | Some key => EVP_DigestSign E key message
  end.

Definition verifySignature (message sig pubKey : bytes) : bool :=
  match d2i_PUBKEY E pubKey with
  | None => false
  | Some key => EVP_DigestVerify E key message sig
  end.

(** [now] is the [int64_t] millisecond count; the subtraction and the
    comparison are done in [uint64_t]. *)
Definition isValidTimestamp (now ts : Z) : bool :=
  u64 (u64 now - ts) <=? MESSAGE_TIMEOUT.

Definition isReplayMessage (c : CryptoModule) (message : SecureMessage) : bool :=
  existsb (fun history =>
             (h_timestamp history =? timestamp message)
             && (h_sequenceNumber history =? sequenceNumber message))
          (messageHistory c).

(** [std::remove_if] + [erase]: the records for which the predicate is
    false are kept, in order. *)
Definition pruneMessageHistory (now : Z) (c : CryptoModule) : CryptoModule :=
  set_messageHistory
    (List.filter (fun history =>
               negb (MESSAGE_TIMEOUT <? u64 (u64 now - h_timestamp history)))
            (messageHistory c)) c.

Definition updateMessageHistory (now : Z) (message : SecureMessage)
    (c : CryptoModule) : CryptoModule :=
  let history := {| h_timestamp := timestamp message;
                    h_sequenceNumber := sequenceNumber message;
                    messageHash := hashMessage (payload message) SHA256 |} in
  let c1 := set_messageHistory (messageHistory c ++ [history]) c in
  if MAX_MESSAGE_HISTORY <? Z.of_nat (length (messageHistory c1))
  then pruneMessageHistory now c1
  else c1.

(** The bytes that are signed: payload, then the object representations
    of the timestamp and of the sequence number. *)
Definition signedBytes (p : bytes) (ts seq : Z) : bytes :=
  p ++ le_bytes 8 ts ++ le_bytes 4 seq.

(** [createSecureMessage]. [sequence] is the function's
    [static uint32_t sequence = 0], one object for the whole process; its
    new value is returned next to the result. [None] stands for the
    exception of [signMessage], which leaves the counter incremented. *)
Definition createSecureMessage (now : Z) (c : CryptoModule) (sequence : Z)
    (p : bytes) : option SecureMessage * Z :=
  let ts := u64 now in
  let sequence' := u32 (sequence + 1) in
  let toSign := signedBytes p ts sequence' in
  match signMessage c toSign with
  | None => (None, sequence')
  | Some sig =>
      let cert := match certificate c with
                  | Some der => der
                  | None => []
                  end in
      (Some {| payload := p; signature := sig; timestamp := ts;
               sequenceNumber := sequence'; senderCert := cert |}, sequence')
  end.

(** [verifySecureMessage] is not [const]; the module it leaves behind is
    returned with the verdict. *)
Definition verifySecureMessage (now : Z) (message : SecureMessage)
    (c : CryptoModule) : bool * CryptoModule :=
  if negb (isValidTimestamp now (timestamp message)) then (false, c)
  else if isReplayMessage c message then (false, c)
  else if match senderCert message with
          | [] => false
          | _ :: _ => negb (d2i_X509 E (senderCert message))
                      || negb (verifyCertificate E Certificate_empty)
          end
       then (false, c)
  else (verifySignature
          (signedBytes (payload message) (timestamp message)
                       (sequenceNumber message))
          (signature message) (senderCert message), c).

End WithExternals.
End Crypto.

(** ** secure-routing.cpp *)

Module Routing.
Import Crypto.

(** Constants for protocol parameters. The literals that are not binary64
    values ([3.6], [0.3]) denote the nearest one, as in C++. *)

Definition MAX_TRUST_SCORE : float := 1%float.
Definition MIN_TRUST_SCORE : float := 0%float.
Definition TRUST_THRESHOLD : float := 0.5%float.
Definition MAX_SPEED : float := 200%float.          (* km/h *)
Definition MAX_ACCELERATION : float := 10%float.    (* m/s^2 *)
Definition ROUTE_TIMEOUT : Z := 60.                 (* std::chrono::seconds *)
Definition NEIGHBOR_TIMEOUT : Z := 10.              (* std::chrono::seconds *)
Definition MAX_HOP_COUNT : Z := 10.

(** A [system_clock::time_point] is its tick count since the epoch;
    libstdc++ ticks in nanoseconds. *)
Definition ticks_per_second : Z := 1000000000.
Definition ticks_per_millisecond : Z := 1000000.

(** [int64_t] arithmetic wraps around. *)
Definition i64 (n : Z) : Z := (n + 2 ^ 63) mod 2 ^ 64 - 2 ^ 63.

(** [time_point - time_point]: the [int64_t] difference of the counts. *)
Definition time_sub (a b : Z) : Z := i64 (a - b).

(** [time_point + duration] for a duration that is not negative: the
    [int64_t] sum of the counts, which for a count in the [int64_t] range
    can leave the range only at the top and then wraps around. *)
Definition time_add (t d : Z) : Z :=
  let sum := t + d in
  if 2 ^ 63 <=? sum then sum - 2 ^ 64 else sum.

(** [duration_cast] to a coarser unit truncates toward zero. *)
Definition to_seconds (d : Z) : Z := Z.quot d ticks_per_second.
Definition to_milliseconds (d : Z) : Z := Z.quot d ticks_per_millisecond.

(** The conversion of an [int64_t] count to [double], for counts of
    magnitude below 2^63. *)
Definition double_of_int64 (n : Z) : float :=
  match n with
  | Z0 => 0%float
  | Zpos _ => PrimFloat.of_uint63 (Uint63.of_Z n)
  | Zneg p => PrimFloat.opp (PrimFloat.of_uint63 (Uint63.of_Z (Zpos p)))
  end.

Record Position := {
  x : float;
  y : float;
  z : float;
  p_timestamp : Z
}.

Record VehicleInfo := {
  id : string;
  position : Position;
  speed : float;
  direction : float;
  v_trustScore : float;
  v_certificate : bytes
}.

Record RouteEntry := {
  nextHop : string;
  hopCount : Z;         (* uint32_t *)
  r_timestamp : Z;
  r_trustScore : float
}.

Inductive MessageType := HELLO | ROUTE_REQUEST | ROUTE_REPLY | ROUTE_ERROR | DATA.

Definition MessageType_value (t : MessageType) : Z :=
  match t with
  | HELLO => 0 | ROUTE_REQUEST => 1 | ROUTE_REPLY => 2 | ROUTE_ERROR => 3
  | DATA => 4
  end.

Record MessageTracker := {
  lastSequence : Z;
  lastUpdate : Z
}.

Record SecureRoutingProtocol := {
  vehicleId : string;
  localInfo : VehicleInfo;
  cryptoModule : CryptoModule;
  routingTable : gmap string RouteEntry;
  neighborTable : gmap string VehicleInfo;
  trustScores : gmap string float;
  messageTracking : gmap string MessageTracker
}.

Definition set_localInfo (i : VehicleInfo) (s : SecureRoutingProtocol) :=
  {| vehicleId := vehicleId s; localInfo := i; cryptoModule := cryptoModule s;
     routingTable := routingTable s; neighborTable := neighborTable s;
     trustScores := trustScores s; messageTracking := messageTracking s |}.

Definition set_cryptoModule (c : CryptoModule) (s : SecureRoutingProtocol) :=
  {| vehicleId := vehicleId s; localInfo := localInfo s; cryptoModule := c;
     routingTable := routingTable s; neighborTable := neighborTable s;
     trustScores := trustScores s; messageTracking := messageTracking s |}.

Definition set_routingTable (t : gmap string RouteEntry) (s : SecureRoutingProtocol) :=
  {| vehicleId := vehicleId s; localInfo := localInfo s;
     cryptoModule := cryptoModule s;
     routingTable := t; neighborTable := neighborTable s;
     trustScores := trustScores s; messageTracking := messageTracking s |}.

Definition set_neighborTable (t : gmap string VehicleInfo) (s : SecureRoutingProtocol) :=
  {| vehicleId := vehicleId s; localInfo := localInfo s;
     cryptoModule := cryptoModule s;
     routingTable := routingTable s; neighborTable := t;
     trustScores := trustScores s; messageTracking := messageTracking s |}.

Definition set_trustScores (t : gmap string float) (s : SecureRoutingProtocol) :=
  {| vehicleId := vehicleId s; localInfo := localInfo s;
     cryptoModule := cryptoModule s;
     routingTable := routingTable s; neighborTable := neighborTable s;
     trustScores := t; messageTracking := messageTracking s |}.

Definition set_position (p : Position) (i : VehicleInfo) : VehicleInfo :=
  {| id := id i; position := p; speed := speed i; direction := direction i;
     v_trustScore := v_trustScore i; v_certificate := v_certificate i |}.

Definition set_trustScore (t : float) (i : VehicleInfo) : VehicleInfo :=
  {| id := id i; position := position i; speed := speed i;
     direction := direction i; v_trustScore := t;
     v_certificate := v_certificate i |}.

(** ** Process state and the monad of a member call

    The process holds the instance and the [static] counter of
    [createSecureMessage]. A call returns, leaves by an exception (the
    mutations made so far stay), or has undefined behaviour. *)

Record World := {
  self : SecureRoutingProtocol;
  sequence : Z
}.

Inductive outcome (A : Type) : Type :=
| Returns (a : A) (w : World)
| Throws (w : World)
| UndefinedBehaviour.
Arguments Returns {A} a w.
Arguments Throws {A} w.
Arguments UndefinedBehaviour {A}.

Definition M (A : Type) : Type := World -> outcome A.

#[global] Instance M_ret : MRet M := fun A a w => Returns a w.
#[global] Instance M_bind : MBind M := fun A B k m w =>
  match m w with
  | Returns a w' => k a w'
  | Throws w' => Throws w'
  | UndefinedBehaviour => UndefinedBehaviour
  end.

Definition get_self : M SecureRoutingProtocol := fun w => Returns (self w) w.
Definition modify_self (f : SecureRoutingProtocol -> SecureRoutingProtocol) : M unit :=
  fun w => Returns tt {| self := f (self w); sequence := sequence w |}.
Definition undefined {A : Type} : M A := fun _ => UndefinedBehaviour.

(** Dereferencing an iterator: [None] is [end()]. *)
Definition deref {A : Type} (it : option A) : M A :=
  match it with
  | Some a => mret a
  | None => undefined
  end.

Definition set_sequence (n : Z) (w : World) : World :=
  {| self := self w; sequence := n |}.

(** [SecureRoutingProtocol::SecureRoutingProtocol(id)]. The members of
    [localInfo] that the constructor does not assign are what their
    default constructors make them (an empty vector, the epoch for a
    [time_point]), or indeterminate for a [double]. *)
Definition SecureRoutingProtocol_new (E : Externals) (vid : string)
  : SecureRoutingProtocol :=
  {| vehicleId := vid;
     localInfo :=
       {| id := vid;
          position := {| x := indeterminate_double E;
                         y := indeterminate_double E;
                         z := indeterminate_double E;
                         p_timestamp := 0 |};
          speed := indeterminate_double E;
          direction := indeterminate_double E;
          v_trustScore := MAX_TRUST_SCORE;
          v_certificate := [] |};
     cryptoModule := CryptoModule_new;
     routingTable := ∅;
     neighborTable := ∅;
     trustScores := ∅;
     messageTracking := ∅ |}.

(** ** Movement *)

Definition calculateDistance (pos1 pos2 : Position) : float :=
  let dx := (x pos1 - x pos2)%float in
  let dy := (y pos1 - y pos2)%float in
  let dz := (z pos1 - z pos2)%float in
  PrimFloat.sqrt (dx * dx + dy * dy + dz * dz)%float.

(** The speed [isValidMovement] compares with [MAX_SPEED]: metres per
    second first, then "Convert speed to km/h". *)
Definition speed_kmh (oldPos newPos : Position) (timeElapsed : float) : float :=
  let distance := calculateDistance oldPos newPos in
  let speed := (distance / timeElapsed)%float in
  (speed * 3.6)%float.

Definition isValidMovement (oldPos newPos : Position) (timeElapsed : float) : bool :=
  if (timeElapsed <=? 0)%float then false
  else
    let speed := speed_kmh oldPos newPos timeElapsed in
    if (MAX_SPEED <? speed)%float then false
    else
      let acceleration := (speed / timeElapsed)%float in
      (acceleration <=? MAX_ACCELERATION)%float.

(** ** Trust *)

Definition detectBlackHole (suspectId : string) : bool := false.
Definition detectSybil (suspectId : string) : bool := false.

Definition detectPositionFalsification (s : SecureRoutingProtocol)
    (vid : string) (reportedPos : Position) : bool :=
  match neighborTable s !! vid with
  | None => false
  | Some info =>
      let lastPos := position info in
      let timeElapsed :=
        double_of_int64
          (to_seconds (time_sub (p_timestamp reportedPos) (p_timestamp lastPos))) in
      negb (isValidMovement lastPos reportedPos timeElapsed)
  end.

(** [std::clamp(v, lo, hi)]. *)
Definition clamp (v lo hi : float) : float :=
  if (v <? lo)%float then lo else if (hi <? v)%float then hi else v.

Definition calculateTrust (s : SecureRoutingProtocol) (vid : string) : float :=
  match trustScores s !! vid with
  | None => MIN_TRUST_SCORE
  | Some score0 =>
      let score1 :=
        if detectBlackHole vid || detectSybil vid
        then (score0 * 0.5)%float else score0 in
      let score2 :=
        match neighborTable s !! vid with
        | Some info =>
            if detectPositionFalsification s vid (position info)
            then (score1 * 0.5)%float else score1
        | None => score1
        end in
      clamp score2 MIN_TRUST_SCORE MAX_TRUST_SCORE
  end.

(** [trustScores[vehicleId]] creates the entry with [0.0] when absent. *)
Definition updateTrustScore (vid : string) (score : float)
    (s : SecureRoutingProtocol) : SecureRoutingProtocol :=
  let currentScore := default 0%float (trustScores s !! vid) in
  let alpha := 0.3%float in
  set_trustScores
    (<[vid := ((alpha * score) + ((1 - alpha) * currentScore))%float]>
       (trustScores s)) s.

Definition isVehicleTrusted (s : SecureRoutingProtocol) (vid : string) : bool :=
  (TRUST_THRESHOLD <=? calculateTrust s vid)%float.

(** ** Tables *)

Definition route_expired (now : Z) (e : RouteEntry) : bool :=
  time_add (r_timestamp e) (ROUTE_TIMEOUT * ticks_per_second) <? now.

Definition neighbor_expired (now : Z) (v : VehicleInfo) : bool :=
  time_add (p_timestamp (position v)) (NEIGHBOR_TIMEOUT * ticks_per_second)
  <? now.

Definition pruneExpiredEntries (now : Z) (s : SecureRoutingProtocol)
  : SecureRoutingProtocol :=
  let s1 := set_routingTable
              (filter (fun kv => route_expired now kv.2 = false) (routingTable s)) s in
  set_neighborTable
    (filter (fun kv => neighbor_expired now kv.2 = false) (neighborTable s1)) s1.

Section WithExternals.
Variable E : Externals.

(** ** Calls into the crypto module *)

Definition crypto_createSecureMessage (now : Z) (p : bytes) : M SecureMessage :=
  fun w =>
    match createSecureMessage E (to_milliseconds now)
            (cryptoModule (self w)) (sequence w) p with
    | (Some m, n) => Returns m (set_sequence n w)
    | (None, n) => Throws (set_sequence n w)
    end.

Definition crypto_verifySecureMessage (now : Z) (m : SecureMessage) : M bool :=
  fun w =>
    let '(ok, c) := verifySecureMessage E (to_milliseconds now) m
                      (cryptoModule (self w)) in
    Returns ok {| self := set_cryptoModule c (self w); sequence := sequence w |}.

Definition crypto_generateKeyPair : M bool :=
  fun w =>
    let '(ok, c) := generateKeyPair E ECDSA (cryptoModule (self w)) in
    Returns ok {| self := set_cryptoModule c (self w); sequence := sequence w |}.

(** ** Messages *)

Definition createRoutingMessage (now : Z) (type : MessageType)
    (destination : string) : M bytes :=
  s ← get_self;
  mret ([MessageType_value type]
        ++ string_bytes (vehicleId s) ++ [0]
        ++ string_bytes destination ++ [0]
        ++ le_bytes 8 (to_milliseconds now)).

Definition verifyRoutingMessage (now : Z) (message : bytes) : M bool :=
  match message with
  | [] => mret false
  | type :: _ =>
      if MessageType_value DATA <? type then mret false
      else crypto_verifySecureMessage now SecureMessage_empty
  end.

(** ** Core routing functions *)

Definition initializeVehicle (info : VehicleInfo) : M bool :=
  s ← get_self;
  if negb (String.eqb (id info) (vehicleId s)) then mret false
  else
    _ ← modify_self (set_localInfo info);
    crypto_generateKeyPair.

Definition updatePosition (now : Z) (newPos : Position) : M bool :=
  s ← get_self;
  let oldPos := position (localInfo s) in
  if negb (isValidMovement oldPos newPos
             (double_of_int64
                (to_seconds (time_sub (p_timestamp newPos) (p_timestamp oldPos)))))
  then mret false
  else
    _ ← modify_self (fun s => set_localInfo (set_position newPos (localInfo s)) s);
    _ ← modify_self (pruneExpiredEntries now);
    mret true.

Definition findRoute (now : Z) (destination : string) : M bool :=
  rreq ← createRoutingMessage now ROUTE_REQUEST destination;
  _ ← crypto_createSecureMessage now rreq;
  mret true.

Definition updateRoute (now : Z) (destination : string) (entry : RouteEntry)
  : M bool :=
  if MAX_HOP_COUNT <=? hopCount entry then mret false
  else if route_expired now entry then mret false
  else
    _ ← modify_self (fun s =>
           set_routingTable (<[destination := entry]> (routingTable s)) s);
    mret true.

Definition invalidateRoute (now : Z) (destination : string) : M bool :=
  s ← get_self;
  match routingTable s !! destination with
  | Some _ =>
      _ ← modify_self (fun s =>
             set_routingTable (delete destination (routingTable s)) s);
      rerr ← createRoutingMessage now ROUTE_ERROR destination;
      _ ← crypto_createSecureMessage now rerr;
      mret true
  | None => mret false
  end.

(** The part of [sendData] after [routeIt] has its final value. *)
Definition sendData_via (now : Z) (destination : string) (data : bytes)
    (routeIt : option RouteEntry) : M bool :=
  route ← deref routeIt;
  s ← get_self;
  if negb (isVehicleTrusted s (nextHop route))
  then
    _ ← invalidateRoute now destination;
    mret false
  else
    message ← createRoutingMessage now DATA destination;
    _ ← crypto_createSecureMessage now (message ++ data);
    mret true.

Definition sendData (now : Z) (destination : string) (data : bytes) : M bool :=
  s ← get_self;
  match routingTable s !! destination with
  | Some route => sendData_via now destination data (Some route)
  | None =>
      found ← findRoute now destination;
      if negb found then mret false
      else
        s' ← get_self;
        sendData_via now destination data (routingTable s' !! destination)
  end.

Definition sendBeacon (now : Z) : M unit :=
  beacon ← createRoutingMessage now HELLO "";
  _ ← crypto_createSecureMessage now beacon;
  mret tt.

(** [VehicleInfo info;] is never filled in: the beacon is not parsed. *)
Definition VehicleInfo_unparsed : VehicleInfo :=
  {| id := "";
     position := {| x := indeterminate_double E; y := indeterminate_double E;
                    z := indeterminate_double E;
                    p_timestamp := 0 |};
     speed := indeterminate_double E;
     direction := indeterminate_double E;
     v_trustScore := indeterminate_double E;
     v_certificate := [] |}.

Definition processBeacon (now : Z) (beacon : bytes) : M bool :=
  let info := VehicleInfo_unparsed in
  ok ← crypto_verifySecureMessage now SecureMessage_empty;
  if negb ok then mret false
  else
    _ ← modify_self (fun s =>
           set_neighborTable (<[id info := info]> (neighborTable s)) s);
    _ ← modify_self (updateTrustScore (id info) 1%float);
    mret true.

Definition receiveMessage (now : Z) (message : bytes) : M bool :=
  ok ← verifyRoutingMessage now message;
  if negb ok then mret false
  else
    type ← deref (head message);
    if type =? MessageType_value HELLO then processBeacon now message
    else mret true.

Definition detectReplay (message : bytes) : M bool :=
  s ← get_self;
  mret (isReplayMessage (cryptoModule s) SecureMessage_empty).

(** ** The public interface as a transition system *)

Inductive call :=
| InitializeVehicle (info : VehicleInfo)
| UpdatePosition (newPos : Position)
| SendData (destination : string) (data : bytes)
| ReceiveMessage (message : bytes)
| FindRoute (destination : string)
| UpdateRoute (destination : string) (entry : RouteEntry)
| InvalidateRoute (destination : string)
| CalculateTrust (vid : string)
| UpdateTrustScore (vid : string) (score : float)
| IsVehicleTrusted (vid : string)
| SendBeacon
| ProcessBeacon (beacon : bytes)
| DetectBlackHole (suspectId : string)
| DetectSybil (suspectId : string)
| DetectReplay (message : bytes)
| DetectPositionFalsification (vid : string) (reportedPos : Position).

Definition discard {A : Type} (m : M A) : M unit := _ ← m; mret tt.

Definition run (now : Z) (c : call) : M unit :=
  match c with
  | InitializeVehicle info => discard (initializeVehicle info)
  | UpdatePosition newPos => discard (updatePosition now newPos)
  | SendData destination data => discard (sendData now destination data)
  | ReceiveMessage message => discard (receiveMessage now message)
  | FindRoute destination => discard (findRoute now destination)
  | UpdateRoute destination entry => discard (updateRoute now destination entry)
  | InvalidateRoute destination => discard (invalidateRoute now destination)
  | CalculateTrust vid => s ← get_self; let _ := calculateTrust s vid in mret tt
  | UpdateTrustScore vid score => modify_self (updateTrustScore vid score)
  | IsVehicleTrusted vid => s ← get_self; let _ := isVehicleTrusted s vid in mret tt
  | SendBeacon => sendBeacon now
  | ProcessBeacon beacon => discard (processBeacon now beacon)
  | DetectBlackHole suspectId => mret tt
  | DetectSybil suspectId => mret tt
  | DetectReplay message => discard (detectReplay message)
  | DetectPositionFalsification vid reportedPos =>
      s ← get_self; let _ := detectPositionFalsification s vid reportedPos in mret tt
  end.

(** The world a call leaves behind, whether it returned or threw. *)
Definition leaves {A : Type} (o : outcome A) (w' : World) : Prop :=
  match o with
  | Returns _ w => w' = w
  | Throws w => w' = w
  | UndefinedBehaviour => False
  end.

(** The states of the instance of vehicle [vid]: a new instance in a
    process whose counter has any value, then any public calls at any
    times, with other instances advancing the counter in between. *)
Inductive reachable (vid : string) : World -> Prop :=
| reachable_new (n : Z) :
    reachable vid {| self := SecureRoutingProtocol_new E vid; sequence := n |}
| reachable_call (w w' : World) (now : Z) (c : call) :
    reachable vid w -> leaves (run now c w) w' -> reachable vid w'
| reachable_counter (w : World) (n : Z) :
    reachable vid w -> reachable vid (set_sequence n w).

End WithExternals.

(** ** Invariants of member calls *)

(** (I1): every route entry has fewer than [MAX_HOP_COUNT] hops. *)
Definition hops_bounded (w : World) : Prop :=
  forall (d : string) (e : RouteEntry),
    routingTable (self w) !! d = Some e -> hopCount e < MAX_HOP_COUNT.

(** [m] keeps [P]: from a world in [P], the world [m] leaves behind, by
    return or by exception, is in [P]. *)
Definition keeps (P : World -> Prop) {A : Type} (m : M A) : Prop :=
  forall w, P w ->
    match m w with
    | Returns _ w' => P w'
    | Throws w' => P w'
    | UndefinedBehaviour => True
    end.

(** The nonnegative values of the binary64 specification. *)
Definition nonneg_SF (f : spec_float) : Prop :=
  match f with
  | S754_zero false | S754_infinity false | S754_finite false _ _ => True
  | _ => False
  end.

End Routing.

(** ** The movement check as the specification words it

    "Δt > 0 required; speed v = d/Δt converted to km/h (× 3.6); reject if
    v > MAX_SPEED; also require |v − v_prev|/Δt ≤ MAX_ACCELERATION", with
    [v] and [v_prev] in m/s. *)

Module Spec.
Import Routing.

Definition isValidMovement (oldPos newPos : Position) (dt v_prev : float) : bool :=
  let v := (calculateDistance oldPos newPos / dt)%float in
  (0 <? dt)%float
  && (v * 3.6 <=? MAX_SPEED)%float
  && (PrimFloat.abs (v - v_prev) / dt <=? MAX_ACCELERATION)%float.

End Spec.

(** ** A concrete instantiation of the externals, for examples

    Key generation always yields key 7 and a signature is the key
    followed by the signed bytes. As with libcrypto, no buffer parses both
    as a certificate and as a public key: a buffer that starts 30 82 (a
    SEQUENCE with a two-byte length) is a certificate, one that starts
    30 56 (the length of a secp256k1 SubjectPublicKeyInfo) is a public key
    and carries key 7, and the empty buffer is neither. Every certificate
    verifies. *)

Module Sample.
Import Crypto Routing.

Definition externals : Externals :=
  {| EVP_PKEY_keygen := fun _ => Some 7%nat;
     EVP_Digest := fun _ m => m;
     EVP_DigestSign := fun key m => Some (Z.of_nat key :: m);
     d2i_PUBKEY := fun der =>
       match der with
       | b1 :: b2 :: _ => if (b1 =? 48) && (b2 =? 86) then Some 7%nat else None
       | _ => None
       end;
     EVP_DigestVerify := fun key m sig => bool_decide (sig = Z.of_nat key :: m);
     d2i_X509 := fun der =>
       match der with
       | b1 :: b2 :: _ => (b1 =? 48) && (b2 =? 130)
       | _ => false
       end;
     verifyCertificate := fun _ => true;
     indeterminate_double := 0%float |}.

(** A module with a private key and a certificate loaded. *)
Definition keyed : CryptoModule :=
  {| privateKey := Some 7%nat; publicKey := None;
     certificate := Some [48; 130]; messageHistory := [] |}.

(** A module that only generated its key pair. *)
Definition keyed_no_cert : CryptoModule :=
  {| privateKey := Some 7%nat; publicKey := None;
     certificate := None; messageHistory := [] |}.

(** 2023-11-14 22:13:20 UTC, in milliseconds and in clock ticks. *)
Definition now_ms : Z := 1700000000000.
Definition now_ticks : Z := 1700000000000 * ticks_per_millisecond.

(** The message [createSecureMessage] makes of the payload "test" as the
    first message of a process. *)
Definition message : SecureMessage :=
  {| payload := [116; 101; 115; 116];
     signature := 7 :: signedBytes [116; 101; 115; 116] now_ms 1;
     timestamp := now_ms;
     sequenceNumber := 1;
     senderCert := [48; 130] |}.

(** [n] messages stamped [now], numbered from 1. *)
Definition burst (now : Z) (n : nat) : list SecureMessage :=
  map (fun i : nat =>
         {| payload := []; signature := []; timestamp := now;
            sequenceNumber := Z.of_nat i; senderCert := [] |})
      (seq 1 n).

Definition record_all (now : Z) (ms : list SecureMessage) (c : CryptoModule)
  : CryptoModule :=
  fold_left (fun c m => updateMessageHistory externals now m c) ms c.

Definition origin (t : Z) : Position :=
  {| x := 0%float; y := 0%float; z := 0%float; p_timestamp := t |}.

Definition along_x (d : float) (t : Z) : Position :=
  {| x := d; y := 0%float; z := 0%float; p_timestamp := t |}.

(** Vehicle "A", constructed and then initialised at the origin. *)
Definition info_A : VehicleInfo :=
  {| id := "A"; position := origin now_ticks; speed := 50%float;
     direction := 0%float; v_trustScore := 1%float; v_certificate := [] |}.

Definition world_new : World :=
  {| self := SecureRoutingProtocol_new externals "A"; sequence := 0 |}.

Definition world_A : World :=
  match initializeVehicle externals info_A world_new with
  | Returns _ w => w
  | _ => world_new
  end.

Definition route_via_B : RouteEntry :=
  {| nextHop := "B"; hopCount := 1; r_timestamp := now_ticks;
     r_trustScore := 1%float |}.

Definition world_routed : World :=
  match updateRoute now_ticks "D" route_via_B world_A with
  | Returns _ w => w
  | _ => world_A
  end.

End Sample.

(** ** Notions used to state further properties *)

Module Notions.
Import Crypto Routing.

(** The integer that a buffer holds, least significant byte first. *)
Definition le_value (bs : bytes) : Z :=
  fold_right (fun b acc => b + 256 * acc) 0 bs.

(** A record that [pruneMessageHistory] keeps at time [now]. *)
Definition fresh (now : Z) (h : MessageHistory) : Prop :=
  u64 (u64 now - h_timestamp h) <= MESSAGE_TIMEOUT.

(** The members of a routing instance of vehicle [vid] that no public
    call changes after construction: its id, the id in [localInfo], the
    empty replay cache, the absent public key and certificate, the empty
    message tracking, and a neighbor table that has no key but the empty
    id. *)
Definition settled (vid : string) (w : World) : Prop :=
  vehicleId (self w) = vid
  /\ id (localInfo (self w)) = vid
  /\ messageHistory (cryptoModule (self w)) = []
  /\ publicKey (cryptoModule (self w)) = None
  /\ certificate (cryptoModule (self w)) = None
  /\ messageTracking (self w) = ∅
  /\ (forall k, k <> ""%string -> neighborTable (self w) !! k = None).

End Notions.

(** ** Further sample states *)

Module Scenario.
Import Crypto Routing.

(** Vehicle "A" with a route to "D" via "B", after two fully valid
    observations of "B" (score 0.3, then 0.51). *)
Definition world_trusting : World :=
  {| self := updateTrustScore "B" 1%float
               (updateTrustScore "B" 1%float (self Sample.world_routed));
     sequence := sequence Sample.world_routed |}.

(** Externals whose key generation fails. *)
Definition no_keygen : Externals :=
  {| EVP_PKEY_keygen := fun _ => None;
     EVP_Digest := EVP_Digest Sample.externals;
     EVP_DigestSign := EVP_DigestSign Sample.externals;
     d2i_PUBKEY := d2i_PUBKEY Sample.externals;
     EVP_DigestVerify := EVP_DigestVerify Sample.externals;
     d2i_X509 := d2i_X509 Sample.externals;
     verifyCertificate := verifyCertificate Sample.externals;
     indeterminate_double := indeterminate_double Sample.externals |}.

(** The instance of "A" as a successful [processBeacon] leaves it: the
    unparsed vehicle stored under the empty id, with score 0.3. *)
Definition beaconed : SecureRoutingProtocol :=
  updateTrustScore "" 1%float
    (set_neighborTable
       (<[""%string := VehicleInfo_unparsed Sample.externals]> ∅)
       (SecureRoutingProtocol_new Sample.externals "A")).

(** A replay cache with one record that is 6 s old at [Sample.now_ms] and
    one that is 1 s old. *)
Definition aged : CryptoModule :=
  set_messageHistory
    [ {| h_timestamp := Sample.now_ms - 6000; h_sequenceNumber := 1;
         messageHash := [] |};
      {| h_timestamp := Sample.now_ms - 1000; h_sequenceNumber := 2;
         messageHash := [] |} ]
    CryptoModule_new.

End Scenario.

Import Crypto Routing.

(** Splits a conjunction and settles its closed equations and
    comparisons by evaluation. *)
Ltac evaluate :=
  intros;
  repeat match goal with |- _ /\ _ => split end;
  try match goal with
      | |- _ = _ => vm_compute; reflexivity
      | |- _ < _ => vm_compute; reflexivity
      end.

(** * Properties of the crypto envelope *)

Section CryptoFacts.
Variable E : Externals.

Lemma u64_range (n : Z) : 0 <= u64 n < 2 ^ 64.
Proof. unfold u64. apply Z.mod_pos_bound. lia. Qed.

Lemma u64_small (n : Z) : 0 <= n < 2 ^ 64 -> u64 n = n.
Proof. unfold u64. apply Z.mod_small. Qed.

(** [verifySecureMessage] has no statement that assigns a member. *)
Lemma verifySecureMessage_module (now : Z) (m : SecureMessage) (c : CryptoModule) :
  snd (verifySecureMessage E now m c) = c.
Proof.
  unfold verifySecureMessage.
  destruct (negb (isValidTimestamp now (timestamp m))); [reflexivity|].
  destruct (isReplayMessage c m); [reflexivity|].
  destruct (senderCert m) as [|b der]; [reflexivity|].
  destruct (negb (d2i_X509 E (b :: der)) || negb (verifyCertificate E Certificate_empty));
    reflexivity.
Qed.

Lemma pruneMessageHistory_fresh (now : Z) (c : CryptoModule) :
  Forall (fun h => u64 (u64 now - h_timestamp h) <= MESSAGE_TIMEOUT)
         (messageHistory (pruneMessageHistory now c)).
Proof.
  unfold pruneMessageHistory; simpl.
  induction (messageHistory c) as [|h l IH]; simpl; [constructor|].
  destruct (MESSAGE_TIMEOUT <? u64 (u64 now - h_timestamp h)) eqn:Hh; simpl.
  - exact IH.
  - constructor; [|exact IH]. apply Z.ltb_ge in Hh. exact Hh.
Qed.

Lemma pruneMessageHistory_length (now : Z) (c : CryptoModule) :
  (length (messageHistory (pruneMessageHistory now c))
   <= length (messageHistory c))%nat.
Proof. unfold pruneMessageHistory; simpl. apply List.filter_length_le. Qed.

End CryptoFacts.




(** C4, refuted as stated: a timestamp one millisecond in the future has
    |now − timestamp| = 1 ≤ MESSAGE_TIMEOUT and is rejected. *)
Lemma isValidTimestamp_not_symmetric :
  ~ (forall now ts : Z,
       0 <= now < 2 ^ 63 -> 0 <= ts < 2 ^ 64 ->
       (isValidTimestamp now ts = true <-> Z.abs (now - ts) <= MESSAGE_TIMEOUT)).
Proof.
  intros H.
  destruct (H Sample.now_ms (Sample.now_ms + 1)) as [_ H1];
    [vm_compute; split; congruence .. |].
  assert (H2 : isValidTimestamp Sample.now_ms (Sample.now_ms + 1) = true).
  { apply H1. vm_compute. congruence. }
  vm_compute in H2. discriminate.
Qed.

(** C4, amended. The difference is taken in [uint64_t], without an
    absolute value: a message is fresh exactly when its timestamp lies in
    [now − MESSAGE_TIMEOUT, now], or when the unsigned difference wraps
    around to at most MESSAGE_TIMEOUT (a timestamp within MESSAGE_TIMEOUT
    of 2^64 + now). A timestamp exactly MESSAGE_TIMEOUT in the past is
    accepted, one millisecond older is rejected, and a timestamp in the
    future by less than 2^64 − MESSAGE_TIMEOUT is rejected. *)
Theorem isValidTimestamp_window (now ts : Z) :
  0 <= now < 2 ^ 63 -> 0 <= ts < 2 ^ 64 ->
  (isValidTimestamp now ts = true
   <-> (ts <= now <= ts + MESSAGE_TIMEOUT
        \/ now + 2 ^ 64 <= ts + MESSAGE_TIMEOUT)).
Proof.
  intros Hnow Hts. unfold isValidTimestamp, MESSAGE_TIMEOUT.
  rewrite (u64_small now) by lia.
  rewrite Z.leb_le.
  destruct (Z.le_gt_cases ts now) as [Hle|Hgt].
  - rewrite u64_small by lia. lia.
  - assert (Hw : u64 (now - ts) = now - ts + 2 ^ 64).
    { unfold u64. symmetry. apply (Z.mod_unique _ _ (-1)); lia. }
    rewrite Hw. lia.
Qed.

Lemma isValidTimestamp_window_witness :
  isValidTimestamp Sample.now_ms (Sample.now_ms - 5000) = true
  /\ isValidTimestamp Sample.now_ms (Sample.now_ms - 5001) = false
  /\ isValidTimestamp Sample.now_ms (Sample.now_ms + 1) = false.
Proof.
  split; [|split].
  - apply (isValidTimestamp_window Sample.now_ms (Sample.now_ms - 5000));
      vm_compute; intuition congruence.
  - reflexivity.
  - reflexivity.
Defined.

(** An insertion appends one record and, when that makes more than
    MAX_MESSAGE_HISTORY, removes the records older than MESSAGE_TIMEOUT:
    afterwards the cache holds at most MAX_MESSAGE_HISTORY records or
    only records that are not older than MESSAGE_TIMEOUT, and it has
    grown by at most one record. *)
Lemma updateMessageHistory_size E (now : Z) (m : SecureMessage) (c : CryptoModule) :
  let c' := updateMessageHistory E now m c in
  (Z.of_nat (length (messageHistory c')) <= MAX_MESSAGE_HISTORY
   \/ Forall (fun h => u64 (u64 now - h_timestamp h) <= MESSAGE_TIMEOUT)
             (messageHistory c'))
  /\ (length (messageHistory c') <= length (messageHistory c) + 1)%nat.
Proof.
  unfold updateMessageHistory. cbv zeta.
  match goal with
  | |- context [set_messageHistory ?l c] => set (c1 := set_messageHistory l c)
  end.
  assert (Hc1 : length (messageHistory c1) = (length (messageHistory c) + 1)%nat).
  { unfold c1; simpl. rewrite length_app. reflexivity. }
  destruct (MAX_MESSAGE_HISTORY <? Z.of_nat (length (messageHistory c1))) eqn:Hbig.
  - split.
    + right. apply pruneMessageHistory_fresh.
    + pose proof (pruneMessageHistory_length now c1). lia.
  - split.
    + left. apply Z.ltb_ge in Hbig. exact Hbig.
    + lia.
Qed.

(** C5, at a concrete input. 1001 messages stamped with the current time
    are recorded at that time in a new module. After the first 1000 the
    cache holds 1000 records; the 1001st insertion triggers the pruning,
    which removes expired records only and so removes none: the insertion
    returns with 1001 records in the cache, more than
    MAX_MESSAGE_HISTORY. *)
Theorem updateMessageHistory_burst_exceeds_MAX_MESSAGE_HISTORY :
  let full := Sample.record_all Sample.now_ms (Sample.burst Sample.now_ms 1000)
                CryptoModule_new in
  let last := nth 1000 (Sample.burst Sample.now_ms 1001) SecureMessage_empty in
  Z.of_nat (length (messageHistory full)) = MAX_MESSAGE_HISTORY
  /\ Z.of_nat (length (messageHistory
                         (updateMessageHistory Sample.externals Sample.now_ms
                            last full))) = 1001
  /\ MAX_MESSAGE_HISTORY < 1001.
Proof. evaluate. Qed.

(** C7, refuted as stated: the first message a process creates carries
    sequence number 1, and the first message that another instance then
    creates carries 2. *)
Lemma createSecureMessage_first_is_not_zero :
  fst (createSecureMessage Sample.externals Sample.now_ms Sample.keyed 0
         [116; 101; 115; 116]) = Some Sample.message
  /\ sequenceNumber Sample.message = 1
  /\ option_map sequenceNumber
       (fst (createSecureMessage Sample.externals Sample.now_ms
               Sample.keyed_no_cert
               (snd (createSecureMessage Sample.externals Sample.now_ms
                       Sample.keyed 0 [116; 101; 115; 116]))
               [116; 101; 115; 116])) = Some 2
  /\ ~ (forall E now c p m n,
          createSecureMessage E now c 0 p = (Some m, n) -> sequenceNumber m = 0).
Proof.
  evaluate.
  intros H.
  specialize (H Sample.externals Sample.now_ms Sample.keyed
                [116; 101; 115; 116] Sample.message 1 eq_refl).
  vm_compute in H. discriminate.
Qed.

(** C7, amended. The counter is one [static] object of the function,
    shared by every instance of the process, and it is incremented before
    it is read: a created message carries the counter's previous value
    plus one modulo 2^32, so the first message of a process carries 1, and
    the next message created by any instance, the same or another one,
    carries the number after it. *)
Theorem createSecureMessage_sequence E (now1 now2 : Z) (c1 c2 : CryptoModule)
    (n : Z) (p1 p2 : bytes) (m1 m2 : SecureMessage) (n1 n2 : Z) :
  createSecureMessage E now1 c1 n p1 = (Some m1, n1) ->
  createSecureMessage E now2 c2 n1 p2 = (Some m2, n2) ->
  sequenceNumber m1 = u32 (n + 1)
  /\ n1 = sequenceNumber m1
  /\ sequenceNumber m2 = u32 (sequenceNumber m1 + 1)
  /\ (n = 0 -> sequenceNumber m1 = 1).
Proof.
  unfold createSecureMessage. intros H1 H2.
  destruct (signMessage E c1 _) as [sig1|]; [|discriminate].
  destruct (signMessage E c2 _) as [sig2|]; [|discriminate].
  injection H1 as <- <-. injection H2 as <- <-. simpl.
  repeat split. intros ->. reflexivity.
Qed.

Lemma createSecureMessage_sequence_witness :
  sequenceNumber Sample.message = u32 (0 + 1)
  /\ 1 = sequenceNumber Sample.message
  /\ 2 = u32 (sequenceNumber Sample.message + 1)
  /\ (0 = 0 -> sequenceNumber Sample.message = 1).
Proof.
  exact (createSecureMessage_sequence Sample.externals
           Sample.now_ms (Sample.now_ms + 1) Sample.keyed Sample.keyed_no_cert
           0 [116; 101; 115; 116] [] Sample.message
           {| payload := [];
              signature := 7 :: signedBytes [] (Sample.now_ms + 1) 2;
              timestamp := Sample.now_ms + 1; sequenceNumber := 2;
              senderCert := [] |}
           1 2 eq_refl eq_refl).
Defined.

(** * Properties of the routing protocol *)

(** ** The arithmetic of time points *)

Lemma i64_small (n : Z) : - 2 ^ 63 <= n < 2 ^ 63 -> i64 n = n.
Proof. intros H. unfold i64. rewrite Z.mod_small; lia. Qed.

Lemma i64_range (n : Z) : - 2 ^ 63 <= i64 n < 2 ^ 63.
Proof.
  unfold i64. pose proof (Z.mod_pos_bound (n + 2 ^ 63) (2 ^ 64)). lia.
Qed.

(** On the sums that [int64_t] counts and durations give, [time_add] is
    the wrapped sum. *)
Lemma time_add_i64 (t d : Z) :
  - 2 ^ 63 <= t + d < 2 ^ 63 + 2 ^ 63 -> time_add t d = i64 (t + d).
Proof.
  intros H. unfold time_add. cbv zeta.
  destruct (2 ^ 63 <=? t + d) eqn:Hs.
  - apply Z.leb_le in Hs. unfold i64.
    assert (Hm : t + d - 2 ^ 63 = (t + d + 2 ^ 63) mod 2 ^ 64).
    { apply (Z.mod_unique _ _ 1); lia. }
    rewrite <- Hm. lia.
  - apply Z.leb_gt in Hs. symmetry. apply i64_small. lia.
Qed.

Lemma time_add_exact (t d : Z) : t + d < 2 ^ 63 -> time_add t d = t + d.
Proof.
  intros H. unfold time_add. cbv zeta.
  destruct (2 ^ 63 <=? t + d) eqn:Hs; [apply Z.leb_le in Hs; lia | reflexivity].
Qed.

Lemma time_add_wraps (t d : Z) :
  2 ^ 63 <= t + d -> time_add t d = t + d - 2 ^ 64.
Proof.
  intros H. unfold time_add. cbv zeta.
  apply Z.leb_le in H. rewrite H. reflexivity.
Qed.

Lemma time_add_le (t d : Z) : time_add t d <= t + d.
Proof.
  unfold time_add. cbv zeta. destruct (2 ^ 63 <=? t + d); lia.
Qed.

(** ** Counts converted to [double] keep their sign *)

Lemma shr_1_nonneg mrs : 0 <= shr_m mrs -> 0 <= shr_m (shr_1 mrs).
Proof.
  destruct mrs as [m r s]; simpl.
  destruct m as [|[p|p|]|[p|p|]]; simpl; lia.
Qed.

Lemma iter_shr_1_nonneg p : forall mrs,
  0 <= shr_m mrs -> 0 <= shr_m (SpecFloat.iter_pos shr_1 p mrs).
Proof.
  induction p as [p IH|p IH|]; intros mrs H; simpl.
  - apply IH, IH, shr_1_nonneg, H.
  - apply IH, IH, H.
  - apply shr_1_nonneg, H.
Qed.

Lemma shr_fexp_nonneg m e l :
  0 <= m -> 0 <= shr_m (fst (shr_fexp prec emax m e l)).
Proof.
  intros H. unfold shr_fexp, shr.
  assert (H0 : 0 <= shr_m (shr_record_of_loc m l)).
  { destruct l as [|[]]; simpl; exact H. }
  destruct (fexp prec emax (Zdigits2 m + e) - e); simpl; auto.
  apply iter_shr_1_nonneg, H0.
Qed.

Lemma round_nearest_even_nonneg m l : 0 <= m -> 0 <= round_nearest_even m l.
Proof.
  intros H. destruct l as [|[]]; simpl; try lia.
  destruct (Z.even m); lia.
Qed.

Lemma binary_round_aux_nonneg m e l :
  0 <= m -> nonneg_SF (binary_round_aux prec emax false m e l).
Proof.
  intros H. unfold binary_round_aux.
  pose proof (shr_fexp_nonneg m e l H) as H1.
  destruct (shr_fexp prec emax m e l) as [mrs' e']. simpl in H1.
  pose proof (shr_fexp_nonneg _ e' loc_Exact
                (round_nearest_even_nonneg _ (loc_of_shr_record mrs') H1)) as H2.
  destruct (shr_fexp prec emax _ e' loc_Exact) as [mrs'' e'']. simpl in H2.
  destruct (shr_m mrs''); simpl; try lia; auto.
  destruct (e'' <=? emax - prec); simpl; auto.
Qed.

Lemma of_uint63_nonneg n : nonneg_SF (Prim2SF (PrimFloat.of_uint63 n)).
Proof.
  rewrite of_uint63_spec. unfold binary_normalize.
  pose proof (Uint63.to_Z_bounded n) as Hn.
  destruct (Uint63.to_Z n) as [|p|p]; simpl; auto; try lia.
  unfold binary_round.
  destruct (shl_align p 0 _) as [mz ez].
  apply binary_round_aux_nonneg. lia.
Qed.

Lemma opp_of_uint63_nonpos n :
  (PrimFloat.opp (PrimFloat.of_uint63 n) <=? 0)%float = true.
Proof.
  rewrite leb_spec, opp_spec.
  pose proof (of_uint63_nonneg n) as H.
  destruct (Prim2SF (PrimFloat.of_uint63 n)) as [[]| []| |[] m e];
    simpl in H; try contradiction; reflexivity.
Qed.

Lemma double_of_int64_nonpos n :
  n <= 0 -> (double_of_int64 n <=? 0)%float = true.
Proof.
  intros H. destruct n as [|p|p]; simpl.
  - reflexivity.
  - lia.
  - apply opp_of_uint63_nonpos.
Qed.

Lemma to_seconds_nonpos d : d < ticks_per_second -> to_seconds d <= 0.
Proof.
  unfold to_seconds, ticks_per_second. intros H.
  destruct (Z.le_gt_cases 0 d) as [Hd|Hd].
  - rewrite Z.quot_small; lia.
  - apply Z.quot_le_upper_bound; lia.
Qed.

(** ** What the calls into the crypto module leave behind *)

Section RoutingFacts.
Variable E : Externals.

Lemma set_cryptoModule_same (s : SecureRoutingProtocol) :
  set_cryptoModule (cryptoModule s) s = s.
Proof. destruct s; reflexivity. Qed.

Lemma crypto_verifySecureMessage_world (now : Z) (m : SecureMessage) (w : World) :
  crypto_verifySecureMessage E now m w
  = Returns (fst (verifySecureMessage E (to_milliseconds now) m
                    (cryptoModule (self w)))) w.
Proof.
  unfold crypto_verifySecureMessage.
  pose proof (verifySecureMessage_module E (to_milliseconds now) m
                (cryptoModule (self w))) as Hc.
  destruct (verifySecureMessage E (to_milliseconds now) m (cryptoModule (self w)))
    as [ok c]. simpl in Hc. subst c.
  rewrite set_cryptoModule_same. destruct w; reflexivity.
Qed.

Lemma verifyRoutingMessage_world (now : Z) (message : bytes) (w : World) :
  exists ok, verifyRoutingMessage E now message w = Returns ok w.
Proof.
  unfold verifyRoutingMessage.
  destruct message as [|type rest]; [exists false; reflexivity|].
  destruct (MessageType_value DATA <? type); [exists false; reflexivity|].
  rewrite crypto_verifySecureMessage_world. eauto.
Qed.

Lemma processBeacon_rejected (now : Z) (beacon : bytes) (w w' : World) :
  processBeacon E now beacon w = Returns false w' -> w' = w.
Proof.
  unfold processBeacon, mbind, M_bind.
  rewrite crypto_verifySecureMessage_world.
  destruct (fst _); simpl.
  - discriminate.
  - intros H. injection H as <-. reflexivity.
Qed.

(** A rejected message, for whatever reason, leaves the instance as it
    was. *)
Lemma receiveMessage_false_world (now : Z) (message : bytes) (w w' : World) :
  receiveMessage E now message w = Returns false w' -> w' = w.
Proof.
  unfold receiveMessage, mbind, M_bind.
  destruct (verifyRoutingMessage_world now message w) as [ok ->].
  destruct ok; simpl.
  - destruct (head message) as [type|]; simpl; [|discriminate].
    destruct (type =? _).
    + apply processBeacon_rejected.
    + discriminate.
  - intros H. injection H as <-. reflexivity.
Qed.

(** ** Calls that keep an invariant *)

Lemma keeps_ret (P : World -> Prop) {A : Type} (a : A) : keeps P (mret a).
Proof. intros w Hw. exact Hw. Qed.

Lemma keeps_bind (P : World -> Prop) {A B : Type} (m : M A) (k : A -> M B) :
  keeps P m -> (forall a, keeps P (k a)) -> keeps P (m ≫= k).
Proof.
  intros Hm Hk w Hw. unfold mbind, M_bind.
  specialize (Hm w Hw).
  destruct (m w) as [a w1|w1|]; auto.
  apply Hk, Hm.
Qed.

Lemma keeps_get_self (P : World -> Prop) : keeps P get_self.
Proof. intros w Hw. exact Hw. Qed.

Lemma keeps_undefined (P : World -> Prop) {A : Type} : keeps P (@undefined A).
Proof. intros w Hw. exact I. Qed.

Lemma keeps_deref (P : World -> Prop) {A : Type} (it : option A) : keeps P (deref it).
Proof. destruct it; [apply keeps_ret | apply keeps_undefined]. Qed.

Lemma keeps_discard (P : World -> Prop) {A : Type} (m : M A) :
  keeps P m -> keeps P (discard m).
Proof. intros H. apply keeps_bind; [exact H | intros a; apply keeps_ret]. Qed.

(** A member assignment that leaves [routingTable] alone keeps
    [hops_bounded]. *)
Lemma keeps_modify_self_routes (f : SecureRoutingProtocol -> SecureRoutingProtocol) :
  (forall s d e, routingTable (f s) !! d = Some e -> routingTable s !! d = Some e) ->
  keeps hops_bounded (modify_self f).
Proof.
  intros Hf w Hw d e Hd. simpl in Hd. apply (Hw d e), Hf, Hd.
Qed.

Lemma keeps_crypto_createSecureMessage (now : Z) (p : bytes) :
  keeps hops_bounded (crypto_createSecureMessage E now p).
Proof.
  intros w Hw. unfold crypto_createSecureMessage.
  destruct (createSecureMessage E _ _ _ p) as [[m|] n]; exact Hw.
Qed.

Lemma keeps_crypto_verifySecureMessage (now : Z) (m : SecureMessage) :
  keeps hops_bounded (crypto_verifySecureMessage E now m).
Proof.
  intros w Hw. rewrite crypto_verifySecureMessage_world. exact Hw.
Qed.

Lemma keeps_crypto_generateKeyPair : keeps hops_bounded (crypto_generateKeyPair E).
Proof.
  intros w Hw. unfold crypto_generateKeyPair.
  destruct (generateKeyPair E ECDSA _) as [ok c]. exact Hw.
Qed.

Lemma pruneExpiredEntries_routes (now : Z) (s : SecureRoutingProtocol) d e :
  routingTable (pruneExpiredEntries now s) !! d = Some e ->
  routingTable s !! d = Some e.
Proof.
  unfold pruneExpiredEntries; simpl. intros H.
  apply map_lookup_filter_Some in H. tauto.
Qed.

Create HintDb keeps.
#[local] Hint Resolve keeps_ret keeps_get_self keeps_undefined keeps_deref
  keeps_discard keeps_crypto_createSecureMessage
  keeps_crypto_verifySecureMessage keeps_crypto_generateKeyPair : keeps.

(** Goes through a sequence of binds, leaving the assignments to tables. *)
Ltac keeps_step :=
  first
    [ solve [auto with keeps]
    | apply keeps_bind; [|intros ?]
    | apply keeps_modify_self_routes; intros ? ? ?; simpl ].

Lemma keeps_createRoutingMessage now type destination :
  keeps hops_bounded (createRoutingMessage now type destination).
Proof. unfold createRoutingMessage. repeat keeps_step. Qed.
#[local] Hint Resolve keeps_createRoutingMessage : keeps.

Lemma keeps_verifyRoutingMessage now message :
  keeps hops_bounded (verifyRoutingMessage E now message).
Proof.
  unfold verifyRoutingMessage. destruct message; [auto with keeps|].
  destruct (_ <? _); auto with keeps.
Qed.

Lemma keeps_initializeVehicle info : keeps hops_bounded (initializeVehicle E info).
Proof.
  unfold initializeVehicle. keeps_step; [keeps_step|].
  destruct (negb _); repeat keeps_step; auto.
Qed.

Lemma keeps_updatePosition now newPos :
  keeps hops_bounded (updatePosition now newPos).
Proof.
  unfold updatePosition. keeps_step; [keeps_step|].
  destruct (negb _); repeat keeps_step; auto.
  apply pruneExpiredEntries_routes.
Qed.

Lemma keeps_findRoute now destination : keeps hops_bounded (findRoute E now destination).
Proof. unfold findRoute. repeat keeps_step. Qed.

Lemma keeps_updateRoute now destination entry :
  keeps hops_bounded (updateRoute now destination entry).
Proof.
  unfold updateRoute.
  destruct (MAX_HOP_COUNT <=? hopCount entry) eqn:Hhop; [auto with keeps|].
  destruct (route_expired now entry); [auto with keeps|].
  apply keeps_bind; [|intros ?; auto with keeps].
  intros w Hw d e Hd. simpl in Hd.
  apply lookup_insert_Some in Hd as [[_ <-]|[_ Hd]].
  - apply Z.leb_gt in Hhop. exact Hhop.
  - apply (Hw d e Hd).
Qed.

Lemma keeps_invalidateRoute now destination :
  keeps hops_bounded (invalidateRoute E now destination).
Proof.
  unfold invalidateRoute. keeps_step; [keeps_step|].
  destruct (routingTable _ !! destination); repeat keeps_step.
  intros H. apply lookup_delete_Some in H. tauto.
Qed.
#[local] Hint Resolve keeps_verifyRoutingMessage keeps_findRoute
  keeps_invalidateRoute : keeps.

Lemma keeps_sendData_via now destination data routeIt :
  keeps hops_bounded (sendData_via E now destination data routeIt).
Proof.
  unfold sendData_via. do 2 (keeps_step; [keeps_step|]).
  destruct (negb _); repeat keeps_step.
Qed.
#[local] Hint Resolve keeps_sendData_via : keeps.

Lemma keeps_sendData now destination data :
  keeps hops_bounded (sendData E now destination data).
Proof.
  unfold sendData. keeps_step; [keeps_step|].
  destruct (routingTable _ !! destination); [auto with keeps|].
  keeps_step; [keeps_step|].
  destruct (negb _); repeat keeps_step.
Qed.

Lemma keeps_sendBeacon now : keeps hops_bounded (sendBeacon E now).
Proof. unfold sendBeacon. repeat keeps_step. Qed.

Lemma keeps_processBeacon now beacon :
  keeps hops_bounded (processBeacon E now beacon).
Proof.
  unfold processBeacon. keeps_step; [keeps_step|].
  destruct (negb _); repeat keeps_step; auto.
Qed.
#[local] Hint Resolve keeps_processBeacon : keeps.

Lemma keeps_receiveMessage now message :
  keeps hops_bounded (receiveMessage E now message).
Proof.
  unfold receiveMessage. keeps_step; [keeps_step|].
  destruct (negb _); [auto with keeps|].
  keeps_step; [keeps_step|].
  destruct (_ =? _); auto with keeps.
Qed.

Lemma keeps_run now c : keeps hops_bounded (run E now c).
Proof.
  destruct c; simpl;
    auto using keeps_initializeVehicle, keeps_updatePosition, keeps_sendData,
      keeps_receiveMessage, keeps_updateRoute, keeps_sendBeacon with keeps.
  - repeat keeps_step.
  - repeat keeps_step; auto.
  - repeat keeps_step.
  - unfold detectReplay. repeat keeps_step.
  - repeat keeps_step.
Qed.

Lemma reachable_hops_bounded vid w : reachable E vid w -> hops_bounded w.
Proof.
  induction 1 as [n|w w' now c Hw IH Hstep|w n Hw IH].
  - intros d e Hd. simpl in Hd. rewrite lookup_empty in Hd. discriminate.
  - pose proof (keeps_run now c w IH) as Hk.
    destruct (run E now c w) as [u w1|w1|]; simpl in Hstep; subst; tauto.
  - exact IH.
Qed.

Lemma updateRoute_refuses now destination entry w :
  MAX_HOP_COUNT <= hopCount entry
  \/ r_timestamp entry + ROUTE_TIMEOUT * ticks_per_second < now ->
  updateRoute now destination entry w = Returns false w.
Proof.
  unfold updateRoute, route_expired. intros [H|H].
  - apply Z.leb_le in H. rewrite H. reflexivity.
  - pose proof (time_add_le (r_timestamp entry)
                  (ROUTE_TIMEOUT * ticks_per_second)) as Hle.
    assert (Hexp : (time_add (r_timestamp entry)
                      (ROUTE_TIMEOUT * ticks_per_second) <? now) = true).
    { apply Z.ltb_lt. lia. }
    rewrite Hexp.
    destruct (MAX_HOP_COUNT <=? hopCount entry); reflexivity.
Qed.

End RoutingFacts.

(** ** The public calls *)

(** C2, refuted as stated: a newly constructed instance is reachable and
    computes trust 0.0 for its own id. *)
Lemma calculateTrust_self_is_not_always_max :
  ~ (forall E vid w,
       reachable E vid w -> calculateTrust (self w) vid = MAX_TRUST_SCORE).
Proof.
  intros H.
  specialize (H Sample.externals "A" Sample.world_new
                (reachable_new Sample.externals "A" 0)).
  apply (f_equal (fun f => PrimFloat.eqb f MAX_TRUST_SCORE)) in H.
  vm_compute in H. discriminate.
Qed.

(** C2, amended. The constructor stores MAX_TRUST_SCORE (1.0) in
    [localInfo.trustScore], and that member is never read by
    [calculateTrust], which looks the id up in [trustScores] like any
    other: for the instance's own id it returns MIN_TRUST_SCORE (0.0)
    while [trustScores] has no entry for it, as in a newly constructed
    instance. *)
Theorem calculateTrust_self_unscored E (s : SecureRoutingProtocol) :
  trustScores s !! vehicleId s = None ->
  calculateTrust s (vehicleId s) = MIN_TRUST_SCORE
  /\ v_trustScore (localInfo (SecureRoutingProtocol_new E (vehicleId s)))
     = MAX_TRUST_SCORE
  /\ calculateTrust (SecureRoutingProtocol_new E (vehicleId s)) (vehicleId s)
     = MIN_TRUST_SCORE.
Proof.
  intros H. unfold calculateTrust. rewrite H. simpl.
  rewrite lookup_empty. repeat split.
Qed.

Lemma calculateTrust_self_unscored_witness :
  calculateTrust (self Sample.world_A) "A" = MIN_TRUST_SCORE
  /\ v_trustScore (localInfo (SecureRoutingProtocol_new Sample.externals "A"))
     = MAX_TRUST_SCORE
  /\ calculateTrust (SecureRoutingProtocol_new Sample.externals "A") "A"
     = MIN_TRUST_SCORE.
Proof.
  exact (calculateTrust_self_unscored Sample.externals (self Sample.world_A)
           eq_refl).
Defined.

(** Without a route to [destination], [sendData] runs [findRoute], which
    installs nothing and returns true unless signing throws, and then
    reads through the iterator that the second [find] returned, which is
    [end()]. *)
Lemma sendData_without_route E now destination data w :
  routingTable (self w) !! destination = None ->
  sendData E now destination data w = UndefinedBehaviour
  \/ exists w', sendData E now destination data w = Throws w'.
Proof.
  intros H. unfold sendData, mbind, M_bind. simpl. rewrite H.
  unfold findRoute, mbind, M_bind. simpl.
  unfold crypto_createSecureMessage.
  destruct (createSecureMessage E _ _ _ _) as [[m|] n]; simpl.
  - rewrite H. left. reflexivity.
  - right. eauto.
Qed.

(** C3, at a concrete input. Vehicle "A", initialised with a key pair
    and with an empty routing table, is asked to send "test" to "B": the
    call does not return false; it dereferences [routingTable.end()]. *)
Theorem sendData_no_route_dereferences_end :
  routingTable (self Sample.world_A) !! "B" = None
  /\ privateKey (cryptoModule (self Sample.world_A)) = Some 7%nat
  /\ findRoute Sample.externals Sample.now_ticks "B" Sample.world_A
     = Returns true (set_sequence 1 Sample.world_A)
  /\ sendData Sample.externals Sample.now_ticks "B" [116; 101; 115; 116]
       Sample.world_A = UndefinedBehaviour.
Proof. evaluate. Qed.

(** C6, the check as the code makes it, and a concrete input. The code
    accepts exactly when the elapsed time is not [<= 0], the speed
    d/Δt × 3.6 does not exceed MAX_SPEED, and that speed, in km/h, divided
    by the elapsed time is at most MAX_ACCELERATION, a bound in m/s^2; no
    previous speed is read. For 5 m in 1 s the speed is 5 m/s, 18 km/h;
    the acceleration from rest is 5 m/s^2, and the check as specified
    accepts the movement after a previous speed of 0 m/s and of 5 m/s;
    the code compares 18 with 10 and rejects it. *)
Theorem isValidMovement_three_tests :
  (forall (oldPos newPos : Position) (timeElapsed : float),
     isValidMovement oldPos newPos timeElapsed
     = negb (timeElapsed <=? 0)%float
       && negb (MAX_SPEED <? speed_kmh oldPos newPos timeElapsed)%float
       && (speed_kmh oldPos newPos timeElapsed / timeElapsed
           <=? MAX_ACCELERATION)%float)
  /\ calculateDistance (Sample.origin 0) (Sample.along_x 5 ticks_per_second)
     = 5%float
  /\ speed_kmh (Sample.origin 0) (Sample.along_x 5 ticks_per_second) 1%float
     = 18%float
  /\ (calculateDistance (Sample.origin 0) (Sample.along_x 5 ticks_per_second)
      / 1 / 1 <=? MAX_ACCELERATION)%float = true
  /\ Spec.isValidMovement (Sample.origin 0) (Sample.along_x 5 ticks_per_second)
       1%float 0%float = true
  /\ Spec.isValidMovement (Sample.origin 0) (Sample.along_x 5 ticks_per_second)
       1%float 5%float = true
  /\ isValidMovement (Sample.origin 0) (Sample.along_x 5 ticks_per_second)
       1%float = false.
Proof.
  split; [|evaluate].
  intros oldPos newPos timeElapsed. unfold isValidMovement.
  destruct (timeElapsed <=? 0)%float; [reflexivity|].
  destruct (MAX_SPEED <? speed_kmh oldPos newPos timeElapsed)%float; reflexivity.
Qed.

(** C8. In every reachable state of a routing instance every entry of
    the routing table has hopCount < MAX_HOP_COUNT, and [updateRoute]
    returns false and leaves the instance as it was for an entry with
    hopCount >= MAX_HOP_COUNT or older than ROUTE_TIMEOUT. *)
Theorem routingTable_hopCount_invariant E (vid : string) (w : World) :
  reachable E vid w ->
  (forall d e, routingTable (self w) !! d = Some e -> hopCount e < MAX_HOP_COUNT)
  /\ (forall now d e,
        MAX_HOP_COUNT <= hopCount e
        \/ r_timestamp e + ROUTE_TIMEOUT * ticks_per_second < now ->
        updateRoute now d e w = Returns false w).
Proof.
  intros Hw. split.
  - exact (reachable_hops_bounded E vid w Hw).
  - intros now d e. apply updateRoute_refuses.
Qed.

Lemma routingTable_hopCount_invariant_witness :
  routingTable (self Sample.world_routed) !! "D" = Some Sample.route_via_B
  /\ (forall d e, routingTable (self Sample.world_routed) !! d = Some e ->
                  hopCount e < MAX_HOP_COUNT)
  /\ (forall now d e,
        MAX_HOP_COUNT <= hopCount e
        \/ r_timestamp e + ROUTE_TIMEOUT * ticks_per_second < now ->
        updateRoute now d e Sample.world_routed = Returns false Sample.world_routed).
Proof.
  split; [reflexivity|].
  apply (routingTable_hopCount_invariant Sample.externals "A").
  apply (reachable_call Sample.externals "A" Sample.world_A Sample.world_routed
           Sample.now_ticks (UpdateRoute "D" Sample.route_via_B)).
  - apply (reachable_call Sample.externals "A" Sample.world_new Sample.world_A
             Sample.now_ticks (InitializeVehicle Sample.info_A)).
    + apply reachable_new.
    + vm_compute. reflexivity.
  - vm_compute. reflexivity.
Defined.

(** C9. When the verification of the received bytes fails,
    [receiveMessage] returns false and the instance — neighbor table,
    routing table and trust scores included — is as before the call. *)
Theorem receiveMessage_rejected_unchanged E (now : Z) (message : bytes)
    (w w1 : World) :
  verifyRoutingMessage E now message w = Returns false w1 ->
  receiveMessage E now message w = Returns false w
  /\ (forall w', receiveMessage E now message w = Returns false w' ->
        neighborTable (self w') = neighborTable (self w)
        /\ routingTable (self w') = routingTable (self w)
        /\ trustScores (self w') = trustScores (self w)).
Proof.
  intros H.
  destruct (verifyRoutingMessage_world E now message w) as [ok Hok].
  rewrite Hok in H. injection H as -> <-.
  split.
  - unfold receiveMessage, mbind, M_bind. rewrite Hok. reflexivity.
  - intros w' Hw'. apply receiveMessage_false_world in Hw'. subst w'.
    repeat split.
Qed.

Lemma receiveMessage_rejected_unchanged_witness :
  receiveMessage Sample.externals Sample.now_ticks [0; 66; 0; 0]
    Sample.world_routed = Returns false Sample.world_routed
  /\ (forall w', receiveMessage Sample.externals Sample.now_ticks [0; 66; 0; 0]
                   Sample.world_routed = Returns false w' ->
        neighborTable (self w') = neighborTable (self Sample.world_routed)
        /\ routingTable (self w') = routingTable (self Sample.world_routed)
        /\ trustScores (self w') = trustScores (self Sample.world_routed)).
Proof.
  apply (receiveMessage_rejected_unchanged Sample.externals Sample.now_ticks
           [0; 66; 0; 0] Sample.world_routed Sample.world_routed).
  vm_compute. reflexivity.
Defined.

Lemma isValidMovement_early (oldPos newPos : Position) (d : Z) :
  d < ticks_per_second ->
  isValidMovement oldPos newPos (double_of_int64 (to_seconds d)) = false.
Proof.
  intros H. unfold isValidMovement.
  rewrite (double_of_int64_nonpos _ (to_seconds_nonpos _ H)). reflexivity.
Qed.

(** C10, refuted as stated: the stamps are subtracted in [int64_t]. For
    vehicle "A", whose position is stamped 1.7e18 ns, a new position at
    the same place stamped with the least time point, 2^63 ns before the
    epoch, is much less than one second after the stored one; the
    difference wraps around to 7523372036 s, and the position is
    accepted. *)
Lemma updatePosition_accepts_after_wrap_around :
  p_timestamp (Sample.origin (- 2 ^ 63))
  - p_timestamp (position (localInfo (self Sample.world_A))) < ticks_per_second
  /\ to_seconds (time_sub (p_timestamp (Sample.origin (- 2 ^ 63)))
                   (p_timestamp (position (localInfo (self Sample.world_A)))))
     = 7523372036
  /\ (exists w', updatePosition Sample.now_ticks (Sample.origin (- 2 ^ 63))
                   Sample.world_A = Returns true w')
  /\ ~ (forall (now : Z) (newPos : Position) (w : World),
          - 2 ^ 63 <= p_timestamp newPos < 2 ^ 63 ->
          - 2 ^ 63 <= p_timestamp (position (localInfo (self w))) < 2 ^ 63 ->
          p_timestamp newPos - p_timestamp (position (localInfo (self w)))
          < ticks_per_second ->
          updatePosition now newPos w = Returns false w).
Proof.
  assert (Hrun : exists w', updatePosition Sample.now_ticks
                              (Sample.origin (- 2 ^ 63)) Sample.world_A
                            = Returns true w').
  { eexists. vm_compute. reflexivity. }
  split; [vm_compute; reflexivity|].
  split; [vm_compute; reflexivity|].
  split; [exact Hrun|].
  intros H. destruct Hrun as [w' Hw'].
  rewrite (H Sample.now_ticks (Sample.origin (- 2 ^ 63)) Sample.world_A) in Hw'.
  - discriminate.
  - vm_compute. split; congruence.
  - vm_compute. split; congruence.
  - vm_compute. reflexivity.
Qed.

(** C10, amended. [updatePosition] returns false and leaves the instance
    as it was for every new position stamped less than one second after
    the stored one and not more than 2^63 ns (some 292 years) before it,
    whatever the distance: the elapsed time is truncated to whole seconds,
    is then at most 0, and fails the first test of [isValidMovement]. *)
Theorem updatePosition_rejects_within_one_second (now : Z) (newPos : Position)
    (w : World) :
  - 2 ^ 63
  <= p_timestamp newPos - p_timestamp (position (localInfo (self w)))
  < ticks_per_second ->
  updatePosition now newPos w = Returns false w.
Proof.
  intros [Hlo Hhi]. unfold updatePosition, mbind, M_bind. simpl.
  unfold time_sub. rewrite i64_small by (unfold ticks_per_second in Hhi; lia).
  rewrite (isValidMovement_early _ _ _ Hhi). reflexivity.
Qed.

Lemma updatePosition_rejects_within_one_second_witness :
  updatePosition (Sample.now_ticks + 999999999)
    (Sample.along_x 10 (Sample.now_ticks + 999999999)) Sample.world_A
  = Returns false Sample.world_A.
Proof.
  apply updatePosition_rejects_within_one_second.
  vm_compute. split; congruence.
Defined.

(** * Further properties of the crypto envelope *)

Import Notions.

(** ** The signed bytes *)

Lemma le_bytes_succ (n : nat) (v : Z) :
  le_bytes (S n) v = v mod 256 :: le_bytes n (v / 256).
Proof.
  unfold le_bytes. rewrite <- cons_seq. simpl map. f_equal.
  - f_equal. change (2 ^ 0) with 1. apply Z.div_1_r.
  - rewrite <- seq_shift, map_map. apply map_ext. intros i.
    f_equal. rewrite Z.div_div by lia. f_equal.
    change 256 with (2 ^ 8). rewrite <- Z.pow_add_r by lia. f_equal. lia.
Qed.

Lemma le_bytes_length (n : nat) (v : Z) : length (le_bytes n v) = n.
Proof. unfold le_bytes. rewrite length_map. apply length_seq. Qed.

Lemma le_value_le_bytes (n : nat) : forall v : Z,
  le_value (le_bytes n v) = v mod 2 ^ (8 * Z.of_nat n).
Proof.
  induction n as [|n IH]; intros v.
  - simpl. symmetry. apply Z.mod_1_r.
  - rewrite le_bytes_succ. simpl le_value. fold (le_value (le_bytes n (v / 256))).
    rewrite IH.
    replace (8 * Z.of_nat (S n)) with (8 + 8 * Z.of_nat n) by lia.
    rewrite Z.pow_add_r by lia. change (2 ^ 8) with 256.
    rewrite Z.rem_mul_r by lia. reflexivity.
Qed.

(** X1. The signed bytes determine what was signed: two bindings of
    payload, timestamp (64 bits) and sequence number (32 bits) with equal
    bytes have equal payloads, timestamps and sequence numbers. *)
Theorem signedBytes_injective (p1 p2 : bytes) (ts1 ts2 q1 q2 : Z) :
  0 <= ts1 < 2 ^ 64 -> 0 <= ts2 < 2 ^ 64 ->
  0 <= q1 < 2 ^ 32 -> 0 <= q2 < 2 ^ 32 ->
  signedBytes p1 ts1 q1 = signedBytes p2 ts2 q2 ->
  p1 = p2 /\ ts1 = ts2 /\ q1 = q2.
Proof.
  intros Hts1 Hts2 Hq1 Hq2 H. unfold signedBytes in H.
  apply app_inj_2 in H as [Hp H];
    [|rewrite !length_app, !le_bytes_length; reflexivity].
  apply app_inj_1 in H as [Ht Hq]; [|rewrite !le_bytes_length; reflexivity].
  apply (f_equal le_value) in Ht, Hq.
  rewrite !le_value_le_bytes in Ht, Hq.
  change (8 * Z.of_nat 8) with 64 in Ht. change (8 * Z.of_nat 4) with 32 in Hq.
  rewrite !Z.mod_small in Ht, Hq by assumption.
  auto.
Qed.

Lemma signedBytes_injective_witness :
  [116; 101; 115; 116] = [116; 101; 115; 116]
  /\ Sample.now_ms = Sample.now_ms /\ 1 = 1.
Proof.
  apply (signedBytes_injective [116; 101; 115; 116] [116; 101; 115; 116]
           Sample.now_ms Sample.now_ms 1 1);
    [vm_compute; split; congruence .. | reflexivity].
Defined.

(** ** The replay cache *)

Lemma isReplayMessage_In (c : CryptoModule) (m : SecureMessage) :
  isReplayMessage c m = true
  <-> exists h, In h (messageHistory c)
                /\ h_timestamp h = timestamp m
                /\ h_sequenceNumber h = sequenceNumber m.
Proof.
  unfold isReplayMessage. rewrite existsb_exists.
  split; intros [h [Hin Hh]]; exists h; (split; [exact Hin|]).
  - apply andb_true_iff in Hh as [H1 H2].
    apply Z.eqb_eq in H1, H2. auto.
  - destruct Hh as [-> ->]. rewrite !Z.eqb_refl. reflexivity.
Qed.

Lemma pruneMessageHistory_In (now : Z) (c : CryptoModule) (h : MessageHistory) :
  In h (messageHistory (pruneMessageHistory now c))
  <-> In h (messageHistory c) /\ fresh now h.
Proof.
  unfold pruneMessageHistory, fresh; simpl. rewrite filter_In.
  rewrite negb_true_iff, Z.ltb_ge. reflexivity.
Qed.

Lemma updateMessageHistory_In E (now : Z) (m : SecureMessage) (c : CryptoModule)
    (h : MessageHistory) :
  In h (messageHistory c) -> fresh now h ->
  In h (messageHistory (updateMessageHistory E now m c)).
Proof.
  intros Hin Hfresh. unfold updateMessageHistory. cbv zeta.
  destruct (MAX_MESSAGE_HISTORY <? _).
  - apply pruneMessageHistory_In. split; [|exact Hfresh].
    simpl. apply in_or_app. left. exact Hin.
  - simpl. apply in_or_app. left. exact Hin.
Qed.

Lemma fresh_window (now ts : Z) :
  0 <= now < 2 ^ 63 -> 0 <= ts < 2 ^ 64 ->
  (u64 (u64 now - ts) <= MESSAGE_TIMEOUT
   <-> (ts <= now <= ts + MESSAGE_TIMEOUT
        \/ now + 2 ^ 64 <= ts + MESSAGE_TIMEOUT)).
Proof.
  intros Hnow Hts. unfold MESSAGE_TIMEOUT.
  rewrite (u64_small now) by lia.
  destruct (Z.le_gt_cases ts now) as [Hle|Hgt].
  - rewrite u64_small by lia. lia.
  - assert (Hw : u64 (now - ts) = now - ts + 2 ^ 64).
    { unfold u64. symmetry. apply (Z.mod_unique _ _ (-1)); lia. }
    rewrite Hw. lia.
Qed.

(** X2. A message recorded by [updateMessageHistory] at a time when it is
    not older than MESSAGE_TIMEOUT, or into a cache of fewer than
    MAX_MESSAGE_HISTORY records, is a replay from then on:
    [isReplayMessage] reports it and [verifySecureMessage] rejects it at
    every time and whatever its signature. *)
Theorem updateMessageHistory_then_replay E (now : Z) (m : SecureMessage)
    (c : CryptoModule) :
  u64 (u64 now - timestamp m) <= MESSAGE_TIMEOUT
  \/ Z.of_nat (length (messageHistory c)) < MAX_MESSAGE_HISTORY ->
  isReplayMessage (updateMessageHistory E now m c) m = true
  /\ (forall now', verifySecureMessage E now' m (updateMessageHistory E now m c)
                   = (false, updateMessageHistory E now m c)).
Proof.
  intros H.
  assert (Hr : isReplayMessage (updateMessageHistory E now m c) m = true).
  { apply isReplayMessage_In.
    exists {| h_timestamp := timestamp m; h_sequenceNumber := sequenceNumber m;
              messageHash := hashMessage E (payload m) SHA256 |}.
    split; [|split; reflexivity].
    unfold updateMessageHistory. cbv zeta.
    destruct (MAX_MESSAGE_HISTORY <? _) eqn:Hbig.
    - apply pruneMessageHistory_In. split.
      + simpl. apply in_or_app. right. left. reflexivity.
      + destruct H as [H|H]; [exact H|].
        apply Z.ltb_lt in Hbig. simpl in Hbig. rewrite length_app in Hbig.
        simpl in Hbig. lia.
    - simpl. apply in_or_app. right. left. reflexivity. }
  split; [exact Hr|].
  intros now'. unfold verifySecureMessage. rewrite Hr.
  destruct (negb (isValidTimestamp now' (timestamp m))); reflexivity.
Qed.

Lemma updateMessageHistory_then_replay_witness :
  isReplayMessage
    (updateMessageHistory Sample.externals (Sample.now_ms + 100) Sample.message
       Sample.keyed) Sample.message = true
  /\ (forall now',
        verifySecureMessage Sample.externals now' Sample.message
          (updateMessageHistory Sample.externals (Sample.now_ms + 100)
             Sample.message Sample.keyed)
        = (false, updateMessageHistory Sample.externals (Sample.now_ms + 100)
                    Sample.message Sample.keyed)).
Proof.
  apply updateMessageHistory_then_replay.
  left. vm_compute. congruence.
Defined.

(** X3. Recording a further message does not make the cache forget a
    replay that is not older than MESSAGE_TIMEOUT: a message reported by
    [isReplayMessage] whose timestamp is fresh at the time of the
    insertion is still reported afterwards. *)
Theorem updateMessageHistory_keeps_fresh_replays E (now : Z)
    (m m' : SecureMessage) (c : CryptoModule) :
  isReplayMessage c m' = true ->
  u64 (u64 now - timestamp m') <= MESSAGE_TIMEOUT ->
  isReplayMessage (updateMessageHistory E now m c) m' = true.
Proof.
  intros Hr Hfresh. apply isReplayMessage_In in Hr as [h [Hin [Ht Hq]]].
  apply isReplayMessage_In. exists h. split; [|auto].
  apply updateMessageHistory_In; [exact Hin|].
  unfold fresh. rewrite Ht. exact Hfresh.
Qed.

Lemma updateMessageHistory_keeps_fresh_replays_witness :
  isReplayMessage
    (updateMessageHistory Sample.externals Sample.now_ms Sample.message
       Scenario.aged)
    {| payload := []; signature := []; timestamp := Sample.now_ms - 1000;
       sequenceNumber := 2; senderCert := [] |} = true.
Proof.
  apply updateMessageHistory_keeps_fresh_replays.
  - reflexivity.
  - vm_compute. congruence.
Defined.

(** X4. After [pruneMessageHistory] at time [now] the cache holds exactly
    the records it held whose unsigned age is at most MESSAGE_TIMEOUT:
    their timestamps lie in [now − MESSAGE_TIMEOUT, now] (or wrap around
    2^64), so records stamped in the future are dropped like expired
    ones; and pruning never makes a message a replay that was not one. *)
Theorem pruneMessageHistory_window (now : Z) (c : CryptoModule) :
  0 <= now < 2 ^ 63 ->
  Forall (fun h => 0 <= h_timestamp h < 2 ^ 64) (messageHistory c) ->
  (forall h, In h (messageHistory (pruneMessageHistory now c)) <->
             In h (messageHistory c)
             /\ (h_timestamp h <= now <= h_timestamp h + MESSAGE_TIMEOUT
                 \/ now + 2 ^ 64 <= h_timestamp h + MESSAGE_TIMEOUT))
  /\ (forall m, isReplayMessage (pruneMessageHistory now c) m = true ->
                isReplayMessage c m = true).
Proof.
  intros Hnow Hts. split.
  - intros h. rewrite pruneMessageHistory_In. unfold fresh.
    split; intros [Hin Hh]; (split; [exact Hin|]).
    + apply fresh_window; [exact Hnow| |exact Hh].
      rewrite Forall_forall in Hts. apply Hts, list_elem_of_In, Hin.
    + apply fresh_window; [exact Hnow| |exact Hh].
      rewrite Forall_forall in Hts. apply Hts, list_elem_of_In, Hin.
  - intros m Hr. apply isReplayMessage_In in Hr as [h [Hin Hh]].
    apply isReplayMessage_In. exists h. split; [|exact Hh].
    apply pruneMessageHistory_In in Hin. tauto.
Qed.

Lemma pruneMessageHistory_window_witness :
  messageHistory (pruneMessageHistory Sample.now_ms Scenario.aged)
  = [ {| h_timestamp := Sample.now_ms - 1000; h_sequenceNumber := 2;
         messageHash := [] |} ]
  /\ (forall h, In h (messageHistory (pruneMessageHistory Sample.now_ms Scenario.aged))
                <-> In h (messageHistory Scenario.aged)
                    /\ (h_timestamp h <= Sample.now_ms <= h_timestamp h + MESSAGE_TIMEOUT
                        \/ Sample.now_ms + 2 ^ 64 <= h_timestamp h + MESSAGE_TIMEOUT))
  /\ (forall m, isReplayMessage (pruneMessageHistory Sample.now_ms Scenario.aged) m = true ->
                isReplayMessage Scenario.aged m = true).
Proof.
  split; [reflexivity|].
  apply pruneMessageHistory_window.
  - vm_compute. split; congruence.
  - repeat constructor; vm_compute; congruence.
Defined.

(** ** Creating and verifying secure messages *)

(** X5. Without a private key [createSecureMessage] leaves by the
    exception of [signMessage], and the process-wide counter has been
    incremented all the same: the sequence number is used up. *)
Theorem createSecureMessage_without_key E (now : Z) (c : CryptoModule)
    (n : Z) (p : bytes) :
  privateKey c = None ->
  signMessage E c (signedBytes p (u64 now) (u32 (n + 1))) = None
  /\ createSecureMessage E now c n p = (None, u32 (n + 1)).
Proof.
  intros H. unfold createSecureMessage, signMessage. rewrite H. auto.
Qed.

Lemma createSecureMessage_without_key_witness :
  signMessage Sample.externals CryptoModule_new
    (signedBytes [116] (u64 Sample.now_ms) (u32 (41 + 1))) = None
  /\ createSecureMessage Sample.externals Sample.now_ms CryptoModule_new 41 [116]
     = (None, u32 (41 + 1)).
Proof.
  exact (createSecureMessage_without_key Sample.externals Sample.now_ms
           CryptoModule_new 41 [116] eq_refl).
Defined.

Lemma createSecureMessage_no_certificate E (now : Z) (c : CryptoModule)
    (n : Z) (p : bytes) (m : SecureMessage) (n' : Z) :
  certificate c = None ->
  createSecureMessage E now c n p = (Some m, n') ->
  senderCert m = [].
Proof.
  intros Hcert Hm. unfold createSecureMessage in Hm.
  destruct (signMessage E c _) as [sig|]; [|discriminate].
  rewrite Hcert in Hm. injection Hm as <- <-. reflexivity.
Qed.

Lemma verifySecureMessage_no_key E (m : SecureMessage) :
  senderCert m = [] -> d2i_PUBKEY E [] = None ->
  forall now' c', verifySecureMessage E now' m c' = (false, c').
Proof.
  intros Hcert Hparse now' c'. unfold verifySecureMessage, verifySignature.
  rewrite Hcert, Hparse.
  destruct (negb _); [reflexivity|].
  destruct (isReplayMessage c' m); reflexivity.
Qed.

(** X6. A module with no certificate loaded attaches none, and
    [verifySecureMessage] takes the public key from the attached
    certificate bytes: when [d2i_PUBKEY] fails on the empty buffer, a
    message created by such a module is rejected by every module at every
    time. *)
Theorem created_without_certificate_never_verifies E (now : Z)
    (c : CryptoModule) (n : Z) (p : bytes) (m : SecureMessage) (n' : Z) :
  certificate c = None ->
  d2i_PUBKEY E [] = None ->
  createSecureMessage E now c n p = (Some m, n') ->
  senderCert m = []
  /\ (forall now' c', verifySecureMessage E now' m c' = (false, c')).
Proof.
  intros Hcert Hparse Hm.
  split.
  - exact (createSecureMessage_no_certificate E now c n p m n' Hcert Hm).
  - apply verifySecureMessage_no_key, Hparse.
    exact (createSecureMessage_no_certificate E now c n p m n' Hcert Hm).
Qed.

Lemma created_without_certificate_never_verifies_witness :
  senderCert
    {| payload := [116]; signature := 7 :: signedBytes [116] Sample.now_ms 1;
       timestamp := Sample.now_ms; sequenceNumber := 1; senderCert := [] |} = []
  /\ (forall now' c',
        verifySecureMessage Sample.externals now'
          {| payload := [116]; signature := 7 :: signedBytes [116] Sample.now_ms 1;
             timestamp := Sample.now_ms; sequenceNumber := 1; senderCert := [] |}
          c' = (false, c')).
Proof.
  exact (created_without_certificate_never_verifies Sample.externals
           Sample.now_ms Sample.keyed_no_cert 0 [116] _ 1
           eq_refl eq_refl eq_refl).
Defined.

(** * Further properties of the routing protocol *)

(** ** Trust *)

(** X8. [calculateTrust] never returns a score below MIN_TRUST_SCORE or
    above MAX_TRUST_SCORE, whatever scores are stored. *)
Theorem calculateTrust_bounds (s : SecureRoutingProtocol) (vid : string) :
  (calculateTrust s vid <? MIN_TRUST_SCORE)%float = false
  /\ (MAX_TRUST_SCORE <? calculateTrust s vid)%float = false.
Proof.
  assert (Hclamp : forall v,
             (clamp v MIN_TRUST_SCORE MAX_TRUST_SCORE <? MIN_TRUST_SCORE)%float = false
             /\ (MAX_TRUST_SCORE <? clamp v MIN_TRUST_SCORE MAX_TRUST_SCORE)%float = false).
  { intros v. unfold clamp.
    destruct (v <? MIN_TRUST_SCORE)%float eqn:H1; [split; reflexivity|].
    destruct (MAX_TRUST_SCORE <? v)%float eqn:H2; [split; reflexivity|].
    split; assumption. }
  unfold calculateTrust.
  destruct (trustScores s !! vid) as [score|].
  - apply Hclamp.
  - split; reflexivity.
Qed.

(** X9. Every vehicle that is in the neighbor table has its stored score
    halved by [calculateTrust]: the position check compares the stored
    position with itself, the elapsed time is 0, and a movement over no
    time counts as falsified. *)
Theorem calculateTrust_neighbor_halved (s : SecureRoutingProtocol)
    (vid : string) (score : float) (info : VehicleInfo) :
  trustScores s !! vid = Some score ->
  neighborTable s !! vid = Some info ->
  detectPositionFalsification s vid (position info) = true
  /\ calculateTrust s vid
     = clamp (score * 0.5)%float MIN_TRUST_SCORE MAX_TRUST_SCORE.
Proof.
  intros Hscore Hinfo.
  assert (Hd : detectPositionFalsification s vid (position info) = true).
  { unfold detectPositionFalsification, time_sub. rewrite Hinfo.
    rewrite Z.sub_diag. reflexivity. }
  split; [exact Hd|].
  unfold calculateTrust. rewrite Hscore, Hinfo, Hd. reflexivity.
Qed.

Lemma calculateTrust_neighbor_halved_witness :
  detectPositionFalsification Scenario.beaconed ""
    (position (VehicleInfo_unparsed Sample.externals)) = true
  /\ calculateTrust Scenario.beaconed ""
     = clamp (0.3 * 0.5)%float MIN_TRUST_SCORE MAX_TRUST_SCORE.
Proof.
  exact (calculateTrust_neighbor_halved Scenario.beaconed "" _ _
           eq_refl eq_refl).
Defined.

(** X10. [updateTrustScore] records a score for the vehicle it is given
    and changes nothing else: the trust computed for every other vehicle,
    the routing table and the neighbor table are as before. *)
Theorem updateTrustScore_frame (s : SecureRoutingProtocol) (vid other : string)
    (score : float) :
  vid <> other ->
  is_Some (trustScores (updateTrustScore vid score s) !! vid)
  /\ calculateTrust (updateTrustScore vid score s) other = calculateTrust s other
  /\ routingTable (updateTrustScore vid score s) = routingTable s
  /\ neighborTable (updateTrustScore vid score s) = neighborTable s.
Proof.
  intros Hne. split; [|split; [|split; reflexivity]].
  - unfold updateTrustScore; simpl. rewrite lookup_insert_eq. eauto.
  - unfold calculateTrust, updateTrustScore, detectPositionFalsification; simpl.
    rewrite lookup_insert_ne by exact Hne. reflexivity.
Qed.

Lemma updateTrustScore_frame_witness :
  is_Some (trustScores (updateTrustScore "B" 1%float (self Sample.world_routed)) !! "B")
  /\ calculateTrust (updateTrustScore "B" 1%float (self Sample.world_routed)) "C"
     = calculateTrust (self Sample.world_routed) "C"
  /\ routingTable (updateTrustScore "B" 1%float (self Sample.world_routed))
     = routingTable (self Sample.world_routed)
  /\ neighborTable (updateTrustScore "B" 1%float (self Sample.world_routed))
     = neighborTable (self Sample.world_routed).
Proof.
  apply updateTrustScore_frame. discriminate.
Defined.

(** X11. A position reported for a known neighbor less than one second
    after the stored one, and not more than 2^63 ns before it, is flagged
    as falsified, whatever the distance. *)
Theorem detectPositionFalsification_within_one_second
    (s : SecureRoutingProtocol) (vid : string) (reportedPos : Position)
    (info : VehicleInfo) :
  neighborTable s !! vid = Some info ->
  - 2 ^ 63 <= p_timestamp reportedPos - p_timestamp (position info)
  < ticks_per_second ->
  detectPositionFalsification s vid reportedPos = true.
Proof.
  intros Hinfo [Hlo Hhi]. unfold detectPositionFalsification. rewrite Hinfo.
  unfold time_sub. rewrite i64_small by (unfold ticks_per_second in Hhi; lia).
  rewrite (isValidMovement_early _ _ _ Hhi). reflexivity.
Qed.

Lemma detectPositionFalsification_within_one_second_witness :
  detectPositionFalsification Scenario.beaconed ""
    (Sample.along_x 1 (ticks_per_second - 1)) = true.
Proof.
  apply (detectPositionFalsification_within_one_second Scenario.beaconed ""
           (Sample.along_x 1 (ticks_per_second - 1))
           (VehicleInfo_unparsed Sample.externals)).
  - reflexivity.
  - vm_compute. split; congruence.
Defined.

(** ** Routes *)

(** X12. [updateRoute] accepts an entry with fewer than MAX_HOP_COUNT hops
    that is at most ROUTE_TIMEOUT old (exactly ROUTE_TIMEOUT included) and
    whose stamp is more than ROUTE_TIMEOUT below the greatest time point,
    so that adding ROUTE_TIMEOUT does not wrap around: it returns true,
    the entry becomes the route to the destination, the routes to other
    destinations stay, and the entry survives the pruning of expired
    entries at the same time. *)
Theorem updateRoute_installs (now : Z) (d : string) (e : RouteEntry) (w : World) :
  hopCount e < MAX_HOP_COUNT ->
  r_timestamp e + ROUTE_TIMEOUT * ticks_per_second < 2 ^ 63 ->
  now <= r_timestamp e + ROUTE_TIMEOUT * ticks_per_second ->
  exists w',
    updateRoute now d e w = Returns true w'
    /\ routingTable (self w') !! d = Some e
    /\ (forall d', d' <> d ->
          routingTable (self w') !! d' = routingTable (self w) !! d')
    /\ routingTable (pruneExpiredEntries now (self w')) !! d = Some e.
Proof.
  intros Hhop Hfit Hage.
  assert (Hexp : route_expired now e = false).
  { unfold route_expired. rewrite (time_add_exact _ _ Hfit).
    apply Z.ltb_ge. exact Hage. }
  unfold updateRoute. apply Z.leb_gt in Hhop. rewrite Hhop, Hexp.
  eexists. split; [reflexivity|]. simpl. split; [|split].
  - apply lookup_insert_eq.
  - intros d' Hd'. apply lookup_insert_ne. congruence.
  - apply map_lookup_filter_Some. split; [apply lookup_insert_eq | exact Hexp].
Qed.

Lemma updateRoute_installs_witness :
  exists w',
    updateRoute (Sample.now_ticks + 60 * ticks_per_second) "D"
      Sample.route_via_B Sample.world_A = Returns true w'
    /\ routingTable (self w') !! "D" = Some Sample.route_via_B
    /\ (forall d', d' <> "D"%string ->
          routingTable (self w') !! d' = routingTable (self Sample.world_A) !! d')
    /\ routingTable
         (pruneExpiredEntries (Sample.now_ticks + 60 * ticks_per_second) (self w'))
       !! "D" = Some Sample.route_via_B.
Proof.
  apply updateRoute_installs; vm_compute; congruence.
Defined.

Lemma invalidateRoute_outcome E (now : Z) (d : string) (r : RouteEntry)
    (w : World) :
  routingTable (self w) !! d = Some r ->
  match invalidateRoute E now d w with
  | Returns b w' =>
      b = true /\ routingTable (self w') = delete d (routingTable (self w))
  | Throws w' => routingTable (self w') = delete d (routingTable (self w))
  | UndefinedBehaviour => False
  end.
Proof.
  intros H. unfold invalidateRoute, mbind, M_bind. simpl. rewrite H. simpl.
  unfold crypto_createSecureMessage. simpl.
  destruct (createSecureMessage E _ _ _ _) as [[m|] n]; simpl; auto.
Qed.

(** X13. [invalidateRoute] on a destination that has a route removes the
    route before it builds and signs the RERR: the route is gone when the
    call returns true, and also when signing throws. *)
Theorem invalidateRoute_removes E (now : Z) (d : string) (r : RouteEntry)
    (w : World) :
  routingTable (self w) !! d = Some r ->
  match invalidateRoute E now d w with
  | Returns b w' =>
      b = true /\ routingTable (self w') = delete d (routingTable (self w))
  | Throws w' => routingTable (self w') = delete d (routingTable (self w))
  | UndefinedBehaviour => False
  end.
Proof. exact (invalidateRoute_outcome E now d r w). Qed.

Lemma invalidateRoute_removes_witness :
  match invalidateRoute Sample.externals Sample.now_ticks "D"
          Sample.world_routed with
  | Returns b w' =>
      b = true
      /\ routingTable (self w')
         = delete "D" (routingTable (self Sample.world_routed))
  | Throws w' =>
      routingTable (self w')
      = delete "D" (routingTable (self Sample.world_routed))
  | UndefinedBehaviour => False
  end.
Proof.
  exact (invalidateRoute_removes Sample.externals Sample.now_ticks "D"
           Sample.route_via_B Sample.world_routed eq_refl).
Defined.

(** X14. [sendData] over a route whose next hop is not trusted sends
    nothing: it removes the route and returns false (or leaves by the
    exception of signing the RERR, the route removed). A next hop without
    a stored score is such a hop. *)
Theorem sendData_untrusted_next_hop E (now : Z) (d : string) (data : bytes)
    (r : RouteEntry) (w : World) :
  routingTable (self w) !! d = Some r ->
  isVehicleTrusted (self w) (nextHop r) = false ->
  match sendData E now d data w with
  | Returns b w' =>
      b = false /\ routingTable (self w') = delete d (routingTable (self w))
  | Throws w' => routingTable (self w') = delete d (routingTable (self w))
  | UndefinedBehaviour => False
  end.
Proof.
  intros H Htrust.
  unfold sendData, sendData_via, mbind, M_bind. simpl. rewrite H. simpl.
  rewrite Htrust. simpl.
  pose proof (invalidateRoute_outcome E now d r w H) as Hinv.
  destruct (invalidateRoute E now d w) as [b w'|w'|]; simpl; tauto.
Qed.

Lemma sendData_untrusted_next_hop_witness :
  trustScores (self Sample.world_routed) !! "B" = None
  /\ match sendData Sample.externals Sample.now_ticks "D" [116; 101; 115; 116]
             Sample.world_routed with
     | Returns b w' =>
         b = false
         /\ routingTable (self w')
            = delete "D" (routingTable (self Sample.world_routed))
     | Throws w' =>
         routingTable (self w')
         = delete "D" (routingTable (self Sample.world_routed))
     | UndefinedBehaviour => False
     end.
Proof.
  split; [reflexivity|].
  exact (sendData_untrusted_next_hop Sample.externals Sample.now_ticks "D"
           [116; 101; 115; 116] Sample.route_via_B Sample.world_routed
           eq_refl eq_refl).
Defined.

(** X15. [sendData] over a route whose next hop is trusted builds and
    signs one DATA message: it returns true, or leaves by the exception of
    signing, and either way the instance is as before and the process-wide
    counter has advanced by one. *)
Theorem sendData_trusted_next_hop E (now : Z) (d : string) (data : bytes)
    (r : RouteEntry) (w : World) :
  routingTable (self w) !! d = Some r ->
  isVehicleTrusted (self w) (nextHop r) = true ->
  match sendData E now d data w with
  | Returns b w' => b = true /\ w' = set_sequence (u32 (sequence w + 1)) w
  | Throws w' => w' = set_sequence (u32 (sequence w + 1)) w
  | UndefinedBehaviour => False
  end.
Proof.
  intros H Htrust.
  unfold sendData, sendData_via, mbind, M_bind. simpl. rewrite H. simpl.
  rewrite Htrust. simpl.
  unfold crypto_createSecureMessage, createSecureMessage. simpl.
  destruct (signMessage E _ _) as [sig|]; simpl; auto.
Qed.

Lemma sendData_trusted_next_hop_witness :
  sendData Sample.externals Sample.now_ticks "D" [116; 101; 115; 116]
    Scenario.world_trusting
  = Returns true (set_sequence 1 Scenario.world_trusting)
  /\ match sendData Sample.externals Sample.now_ticks "D" [116; 101; 115; 116]
             Scenario.world_trusting with
     | Returns b w' =>
         b = true
         /\ w' = set_sequence (u32 (sequence Scenario.world_trusting + 1))
                   Scenario.world_trusting
     | Throws w' =>
         w' = set_sequence (u32 (sequence Scenario.world_trusting + 1))
                Scenario.world_trusting
     | UndefinedBehaviour => False
     end.
Proof.
  split; [vm_compute; reflexivity|].
  exact (sendData_trusted_next_hop Sample.externals Sample.now_ticks "D"
           [116; 101; 115; 116] Sample.route_via_B Scenario.world_trusting
           eq_refl eq_refl).
Defined.

(** X16. After [pruneExpiredEntries] at time [now] the routing table holds
    exactly the routes it held whose stamp plus ROUTE_TIMEOUT, added in
    [int64_t], is not before [now]: the routes at most ROUTE_TIMEOUT old
    when the sum does not wrap around, and, of the routes stamped within
    ROUTE_TIMEOUT of the greatest time point, those whose wrapped sum is
    not before [now]. The same holds of the neighbor table with
    NEIGHBOR_TIMEOUT. The trust scores are not pruned. *)
Theorem pruneExpiredEntries_keeps_exactly (now : Z) (s : SecureRoutingProtocol) :
  (forall d e,
     routingTable (pruneExpiredEntries now s) !! d = Some e
     <-> routingTable s !! d = Some e
         /\ (r_timestamp e + ROUTE_TIMEOUT * ticks_per_second < 2 ^ 63
             /\ now <= r_timestamp e + ROUTE_TIMEOUT * ticks_per_second
             \/ 2 ^ 63 <= r_timestamp e + ROUTE_TIMEOUT * ticks_per_second
                /\ now <= r_timestamp e + ROUTE_TIMEOUT * ticks_per_second
                          - 2 ^ 64))
  /\ (forall k v,
        neighborTable (pruneExpiredEntries now s) !! k = Some v
        <-> neighborTable s !! k = Some v
            /\ (p_timestamp (position v) + NEIGHBOR_TIMEOUT * ticks_per_second
                < 2 ^ 63
                /\ now <= p_timestamp (position v)
                          + NEIGHBOR_TIMEOUT * ticks_per_second
                \/ 2 ^ 63 <= p_timestamp (position v)
                             + NEIGHBOR_TIMEOUT * ticks_per_second
                   /\ now <= p_timestamp (position v)
                             + NEIGHBOR_TIMEOUT * ticks_per_second - 2 ^ 64))
  /\ trustScores (pruneExpiredEntries now s) = trustScores s.
Proof.
  assert (Hkept : forall t d,
             (time_add t d <? now) = false
             <-> (t + d < 2 ^ 63 /\ now <= t + d
                  \/ 2 ^ 63 <= t + d /\ now <= t + d - 2 ^ 64)).
  { intros t d. rewrite Z.ltb_ge.
    destruct (Z.lt_ge_cases (t + d) (2 ^ 63)) as [Hfit|Hwrap].
    - rewrite (time_add_exact _ _ Hfit). lia.
    - rewrite (time_add_wraps _ _ Hwrap). lia. }
  unfold pruneExpiredEntries; simpl. split; [|split; [|reflexivity]].
  - intros d e. rewrite map_lookup_filter_Some. simpl.
    unfold route_expired. rewrite Hkept. reflexivity.
  - intros k v. rewrite map_lookup_filter_Some. simpl.
    unfold neighbor_expired. rewrite Hkept. reflexivity.
Qed.

(** ** Positions and initialisation *)

(** X17. When [updatePosition] returns true, the [int64_t] difference of
    the new stamp and the old one is at least one second (so the new
    position is stamped at least one second later, unless it is stamped
    more than 2^63 ns earlier and the difference wrapped around), the new
    position has replaced the old one, the tables have been pruned at the
    time of the call, so no route is left whose stamp plus ROUTE_TIMEOUT
    is before that time, and nothing else has changed. *)
Theorem updatePosition_accepted (now : Z) (newPos : Position) (w w' : World) :
  updatePosition now newPos w = Returns true w' ->
  ticks_per_second
  <= time_sub (p_timestamp newPos) (p_timestamp (position (localInfo (self w))))
  /\ (- 2 ^ 63
      <= p_timestamp newPos - p_timestamp (position (localInfo (self w))) ->
      ticks_per_second
      <= p_timestamp newPos - p_timestamp (position (localInfo (self w))))
  /\ position (localInfo (self w')) = newPos
  /\ self w' = pruneExpiredEntries now
                 (set_localInfo (set_position newPos (localInfo (self w))) (self w))
  /\ sequence w' = sequence w
  /\ (forall d e, routingTable (self w') !! d = Some e ->
                  now <= time_add (r_timestamp e)
                           (ROUTE_TIMEOUT * ticks_per_second)).
Proof.
  intros H. unfold updatePosition, mbind, M_bind in H. simpl in H.
  assert (Hge : ticks_per_second
                <= time_sub (p_timestamp newPos)
                     (p_timestamp (position (localInfo (self w))))).
  { destruct (Z.lt_ge_cases
                (time_sub (p_timestamp newPos)
                   (p_timestamp (position (localInfo (self w)))))
                ticks_per_second) as [Hlt|Hge]; [|exact Hge].
    rewrite (isValidMovement_early _ _ _ Hlt) in H. discriminate. }
  destruct (isValidMovement _ _ _); simpl in H; [|discriminate].
  injection H as <-. simpl.
  split; [exact Hge|]. split; [|split; [reflexivity|]].
  - intros Hlo. unfold time_sub in Hge.
    destruct (Z.lt_ge_cases
                (p_timestamp newPos - p_timestamp (position (localInfo (self w))))
                ticks_per_second) as [Hlt|Hok]; [|exact Hok].
    rewrite i64_small in Hge by (unfold ticks_per_second in Hlt; lia). lia.
  - split; [reflexivity|]. split; [reflexivity|].
    intros d e Hd. apply map_lookup_filter_Some in Hd as [_ Hd].
    simpl in Hd. unfold route_expired in Hd. apply Z.ltb_ge in Hd. exact Hd.
Qed.

Lemma updatePosition_accepted_witness :
  ticks_per_second
  <= time_sub
       (p_timestamp (Sample.along_x 2000 (Sample.now_ticks + 36 * ticks_per_second)))
       (p_timestamp (position (localInfo (self Sample.world_routed))))
  /\ position
       (localInfo
          (pruneExpiredEntries (Sample.now_ticks + 36 * ticks_per_second)
             (set_localInfo
                (set_position
                   (Sample.along_x 2000 (Sample.now_ticks + 36 * ticks_per_second))
                   (localInfo (self Sample.world_routed)))
                (self Sample.world_routed))))
     = Sample.along_x 2000 (Sample.now_ticks + 36 * ticks_per_second).
Proof.
  pose proof (updatePosition_accepted
                (Sample.now_ticks + 36 * ticks_per_second)
                (Sample.along_x 2000 (Sample.now_ticks + 36 * ticks_per_second))
                Sample.world_routed
                {| self :=
                     pruneExpiredEntries (Sample.now_ticks + 36 * ticks_per_second)
                       (set_localInfo
                          (set_position
                             (Sample.along_x 2000
                                (Sample.now_ticks + 36 * ticks_per_second))
                             (localInfo (self Sample.world_routed)))
                          (self Sample.world_routed));
                   sequence := sequence Sample.world_routed |}
                eq_refl) as (H1 & _ & H3 & _).
  split; [exact H1 | exact H3].
Defined.

(** X18. [initializeVehicle] assigns [localInfo] before it generates the
    key pair: when the id matches and key generation fails, the call
    returns false with [localInfo] already replaced, no key stored, and
    the rest of the instance as before. *)
Theorem initializeVehicle_keygen_failure E (info : VehicleInfo) (w : World) :
  id info = vehicleId (self w) ->
  EVP_PKEY_keygen E ECDSA = None ->
  initializeVehicle E info w
  = Returns false {| self := set_localInfo info (self w);
                     sequence := sequence w |}.
Proof.
  intros Hid Hgen. unfold initializeVehicle, mbind, M_bind. simpl.
  apply String.eqb_eq in Hid. rewrite Hid. simpl.
  unfold crypto_generateKeyPair, generateKeyPair. simpl. rewrite Hgen.
  reflexivity.
Qed.

Lemma initializeVehicle_keygen_failure_witness :
  initializeVehicle Scenario.no_keygen Sample.info_A Sample.world_new
  = Returns false {| self := set_localInfo Sample.info_A (self Sample.world_new);
                     sequence := sequence Sample.world_new |}.
Proof.
  exact (initializeVehicle_keygen_failure Scenario.no_keygen Sample.info_A
           Sample.world_new eq_refl eq_refl).
Defined.

(** ** Sending without a key, receiving *)

(** X19. An instance whose crypto module has no private key (none before
    a successful [initializeVehicle]) cannot send: [findRoute],
    [sendBeacon] and [sendData] to any destination leave by the exception
    of [signMessage], and each has used up one sequence number. *)
Theorem sending_without_key_throws E (now : Z) (d : string) (data : bytes)
    (w : World) :
  privateKey (cryptoModule (self w)) = None ->
  findRoute E now d w = Throws (set_sequence (u32 (sequence w + 1)) w)
  /\ sendBeacon E now w = Throws (set_sequence (u32 (sequence w + 1)) w)
  /\ exists w', sendData E now d data w = Throws w'
                /\ sequence w' = u32 (sequence w + 1).
Proof.
  intros Hkey.
  assert (Hc : forall p w0,
             cryptoModule (self w0) = cryptoModule (self w) ->
             crypto_createSecureMessage E now p w0
             = Throws (set_sequence (u32 (sequence w0 + 1)) w0)).
  { intros p w0 Hw0. unfold crypto_createSecureMessage, createSecureMessage,
      signMessage. rewrite Hw0, Hkey. reflexivity. }
  split; [|split].
  - unfold findRoute, mbind, M_bind. simpl. rewrite Hc; reflexivity.
  - unfold sendBeacon, mbind, M_bind. simpl. rewrite Hc; reflexivity.
  - unfold sendData, mbind, M_bind. simpl.
    destruct (routingTable (self w) !! d) as [r|] eqn:Hr.
    + unfold sendData_via, mbind, M_bind. simpl.
      destruct (isVehicleTrusted (self w) (nextHop r)); simpl.
      * rewrite Hc by reflexivity. eauto.
      * unfold invalidateRoute, mbind, M_bind. simpl. rewrite Hr. simpl.
        rewrite Hc by reflexivity. simpl. eauto.
    + unfold findRoute, mbind, M_bind. simpl. rewrite Hc by reflexivity. eauto.
Qed.

Lemma sending_without_key_throws_witness :
  findRoute Sample.externals Sample.now_ticks "B" Sample.world_new
  = Throws (set_sequence (u32 (sequence Sample.world_new + 1)) Sample.world_new)
  /\ sendBeacon Sample.externals Sample.now_ticks Sample.world_new
     = Throws (set_sequence (u32 (sequence Sample.world_new + 1)) Sample.world_new)
  /\ exists w', sendData Sample.externals Sample.now_ticks "B" [116]
                  Sample.world_new = Throws w'
                /\ sequence w' = u32 (sequence Sample.world_new + 1).
Proof.
  exact (sending_without_key_throws Sample.externals Sample.now_ticks "B" [116]
           Sample.world_new eq_refl).
Defined.

Lemma verify_empty_message_stale E (ms : Z) (c : CryptoModule) :
  MESSAGE_TIMEOUT < ms < 2 ^ 63 ->
  verifySecureMessage E ms SecureMessage_empty c = (false, c).
Proof.
  intros H. unfold MESSAGE_TIMEOUT in H.
  unfold verifySecureMessage, isValidTimestamp. simpl.
  rewrite Z.sub_0_r. rewrite !(u64_small ms) by lia.
  destruct (ms <=? MESSAGE_TIMEOUT) eqn:Hms; [|reflexivity].
  apply Z.leb_le in Hms. unfold MESSAGE_TIMEOUT in Hms. lia.
Qed.

(** X20. Whatever bytes arrive, the secure message that [receiveMessage]
    and [processBeacon] verify is the empty one, with timestamp 0: at every
    clock reading more than MESSAGE_TIMEOUT after the epoch both return
    false for every input and leave the instance as it was. *)
Theorem receiveMessage_rejects_everything E (now : Z) (message : bytes)
    (w : World) :
  MESSAGE_TIMEOUT < to_milliseconds now < 2 ^ 63 ->
  receiveMessage E now message w = Returns false w
  /\ processBeacon E now message w = Returns false w.
Proof.
  intros Hnow.
  assert (Hv : crypto_verifySecureMessage E now SecureMessage_empty w
               = Returns false w).
  { rewrite crypto_verifySecureMessage_world.
    rewrite (verify_empty_message_stale E _ _ Hnow). reflexivity. }
  split.
  - unfold receiveMessage, verifyRoutingMessage, mbind, M_bind.
    destruct message as [|type rest]; [reflexivity|].
    destruct (MessageType_value DATA <? type); [reflexivity|].
    rewrite Hv. reflexivity.
  - unfold processBeacon, mbind, M_bind. rewrite Hv. reflexivity.
Qed.

Lemma receiveMessage_rejects_everything_witness :
  receiveMessage Sample.externals Sample.now_ticks [0; 66; 0; 0]
    Sample.world_A = Returns false Sample.world_A
  /\ processBeacon Sample.externals Sample.now_ticks [0; 66; 0; 0]
       Sample.world_A = Returns false Sample.world_A.
Proof.
  apply receiveMessage_rejects_everything.
  vm_compute. split; reflexivity.
Defined.

(** X21. [receiveMessage] looks at the first byte of its input and at
    nothing else: two inputs with the same first byte (or both empty) have
    the same outcome. *)
Theorem receiveMessage_reads_first_byte_only E (now : Z) (m1 m2 : bytes)
    (w : World) :
  head m1 = head m2 ->
  receiveMessage E now m1 w = receiveMessage E now m2 w.
Proof.
  intros H. unfold receiveMessage, verifyRoutingMessage, mbind, M_bind.
  destruct m1 as [|b1 r1], m2 as [|b2 r2]; simpl in H; try discriminate;
    [reflexivity|].
  injection H as ->. reflexivity.
Qed.

Lemma receiveMessage_reads_first_byte_only_witness :
  receiveMessage Sample.externals Sample.now_ticks [0; 65] Sample.world_A
  = receiveMessage Sample.externals Sample.now_ticks [0; 66; 1; 2; 3]
      Sample.world_A.
Proof.
  apply receiveMessage_reads_first_byte_only. reflexivity.
Defined.

(** ** What no public call changes *)

Section Settled.
Variable E : Externals.
Variable vid : string.

Lemma keeps_settled_modify (f : SecureRoutingProtocol -> SecureRoutingProtocol) :
  (forall s,
     vehicleId (f s) = vehicleId s
     /\ id (localInfo (f s)) = id (localInfo s)
     /\ cryptoModule (f s) = cryptoModule s
     /\ messageTracking (f s) = messageTracking s
     /\ (forall k, k <> ""%string -> neighborTable s !! k = None ->
                   neighborTable (f s) !! k = None)) ->
  keeps (settled vid) (modify_self f).
Proof.
  intros Hf w (H1 & H2 & H3 & H4 & H5 & H6 & H7).
  destruct (Hf (self w)) as (F1 & F2 & F3 & F4 & F5).
  unfold settled; simpl. rewrite F1, F2, F3, F4.
  repeat (split; [assumption|]). intros k Hk. apply F5; auto.
Qed.

Lemma keeps_settled_createSecureMessage (now : Z) (p : bytes) :
  keeps (settled vid) (crypto_createSecureMessage E now p).
Proof.
  intros w Hw. unfold crypto_createSecureMessage.
  destruct (createSecureMessage E _ _ _ p) as [[m|] n]; exact Hw.
Qed.

Lemma keeps_settled_verifySecureMessage (now : Z) (m : SecureMessage) :
  keeps (settled vid) (crypto_verifySecureMessage E now m).
Proof.
  intros w Hw. rewrite crypto_verifySecureMessage_world. exact Hw.
Qed.

Lemma keeps_settled_generateKeyPair :
  keeps (settled vid) (crypto_generateKeyPair E).
Proof.
  intros w Hw. unfold crypto_generateKeyPair, generateKeyPair.
  destruct (EVP_PKEY_keygen E ECDSA) as [key|]; exact Hw.
Qed.

Create HintDb settled.
#[local] Hint Resolve keeps_ret keeps_get_self keeps_undefined keeps_deref
  keeps_discard keeps_settled_createSecureMessage
  keeps_settled_verifySecureMessage keeps_settled_generateKeyPair : settled.

(** Goes through a sequence of binds; an assignment is left as the
    obligations of [keeps_settled_modify]. *)
Ltac settled_step :=
  first
    [ solve [auto with settled]
    | apply keeps_bind; [|intros ?]
    | apply keeps_settled_modify; intros ?; simpl;
      repeat (split; [reflexivity|]) ].

(** The obligation on the neighbor table that an assignment leaves. *)
Ltac settled_neighbors :=
  intros k Hk Hnone;
  first
    [ exact Hnone
    | apply map_lookup_filter_None; left; exact Hnone
    | rewrite lookup_insert_ne by congruence; exact Hnone ].

Lemma keeps_settled_createRoutingMessage now type destination :
  keeps (settled vid) (createRoutingMessage now type destination).
Proof. unfold createRoutingMessage. repeat settled_step. Qed.
#[local] Hint Resolve keeps_settled_createRoutingMessage : settled.

Lemma keeps_settled_verifyRoutingMessage now message :
  keeps (settled vid) (verifyRoutingMessage E now message).
Proof.
  unfold verifyRoutingMessage. destruct message; [auto with settled|].
  destruct (_ <? _); auto with settled.
Qed.

Lemma keeps_settled_initializeVehicle info :
  keeps (settled vid) (initializeVehicle E info).
Proof.
  intros w Hw. unfold initializeVehicle, mbind, M_bind. simpl.
  destruct (String.eqb (id info) (vehicleId (self w))) eqn:Hid; simpl;
    [|exact Hw].
  apply String.eqb_eq in Hid.
  apply keeps_settled_generateKeyPair.
  destruct Hw as (H1 & H2 & H3 & H4 & H5 & H6 & H7).
  unfold settled; simpl. repeat (split; [congruence|]). exact H7.
Qed.

Lemma keeps_settled_updatePosition now newPos :
  keeps (settled vid) (updatePosition now newPos).
Proof.
  unfold updatePosition. settled_step; [settled_step|].
  destruct (negb _); repeat settled_step; settled_neighbors.
Qed.

Lemma keeps_settled_findRoute now destination :
  keeps (settled vid) (findRoute E now destination).
Proof. unfold findRoute. repeat settled_step. Qed.

Lemma keeps_settled_updateRoute now destination entry :
  keeps (settled vid) (updateRoute now destination entry).
Proof.
  unfold updateRoute.
  destruct (MAX_HOP_COUNT <=? hopCount entry); [auto with settled|].
  destruct (route_expired now entry); repeat settled_step; settled_neighbors.
Qed.

Lemma keeps_settled_invalidateRoute now destination :
  keeps (settled vid) (invalidateRoute E now destination).
Proof.
  unfold invalidateRoute. settled_step; [settled_step|].
  destruct (routingTable _ !! destination); repeat settled_step;
    settled_neighbors.
Qed.
#[local] Hint Resolve keeps_settled_verifyRoutingMessage keeps_settled_findRoute
  keeps_settled_invalidateRoute : settled.

Lemma keeps_settled_sendData_via now destination data routeIt :
  keeps (settled vid) (sendData_via E now destination data routeIt).
Proof.
  unfold sendData_via. do 2 (settled_step; [settled_step|]).
  destruct (negb _); repeat settled_step.
Qed.
#[local] Hint Resolve keeps_settled_sendData_via : settled.

Lemma keeps_settled_sendData now destination data :
  keeps (settled vid) (sendData E now destination data).
Proof.
  unfold sendData. settled_step; [settled_step|].
  destruct (routingTable _ !! destination); [auto with settled|].
  settled_step; [settled_step|].
  destruct (negb _); repeat settled_step.
Qed.

Lemma keeps_settled_sendBeacon now : keeps (settled vid) (sendBeacon E now).
Proof. unfold sendBeacon. repeat settled_step. Qed.

Lemma keeps_settled_processBeacon now beacon :
  keeps (settled vid) (processBeacon E now beacon).
Proof.
  unfold processBeacon. settled_step; [settled_step|].
  destruct (negb _); repeat settled_step; settled_neighbors.
Qed.
#[local] Hint Resolve keeps_settled_processBeacon : settled.

Lemma keeps_settled_receiveMessage now message :
  keeps (settled vid) (receiveMessage E now message).
Proof.
  unfold receiveMessage. settled_step; [settled_step|].
  destruct (negb _); [auto with settled|].
  settled_step; [settled_step|].
  destruct (_ =? _); auto with settled.
Qed.

Lemma keeps_settled_run now c : keeps (settled vid) (run E now c).
Proof.
  destruct c; simpl;
    auto using keeps_settled_initializeVehicle, keeps_settled_updatePosition,
      keeps_settled_sendData, keeps_settled_receiveMessage,
      keeps_settled_updateRoute, keeps_settled_sendBeacon with settled.
  - repeat settled_step.
  - repeat settled_step; settled_neighbors.
  - repeat settled_step.
  - unfold detectReplay. repeat settled_step.
  - repeat settled_step.
Qed.

Lemma reachable_settled w : reachable E vid w -> settled vid w.
Proof.
  induction 1 as [n|w w' now c Hw IH Hstep|w n Hw IH].
  - unfold settled; simpl. repeat (split; [reflexivity|]).
    intros k _. apply lookup_empty.
  - pose proof (keeps_settled_run now c w IH) as Hk.
    destruct (run E now c w) as [u w1|w1|]; simpl in Hstep; subst; tauto.
  - exact IH.
Qed.

End Settled.

Lemma world_routed_reachable :
  reachable Sample.externals "A" Sample.world_routed.
Proof.
  apply (reachable_call Sample.externals "A" Sample.world_A Sample.world_routed
           Sample.now_ticks (UpdateRoute "D" Sample.route_via_B)).
  - apply (reachable_call Sample.externals "A" Sample.world_new Sample.world_A
             Sample.now_ticks (InitializeVehicle Sample.info_A)).
    + apply reachable_new.
    + vm_compute. reflexivity.
  - vm_compute. reflexivity.
Defined.

(** X22. An instance keeps its identity: in every reachable state the
    instance's id is the one it was constructed with, and so is the id in
    [localInfo], since [initializeVehicle] refuses a [VehicleInfo] with
    another id and no other call assigns it. *)
Theorem reachable_identity E (vid : string) (w : World) :
  reachable E vid w ->
  vehicleId (self w) = vid /\ id (localInfo (self w)) = vid.
Proof.
  intros H. apply reachable_settled in H.
  destruct H as (H1 & H2 & _). auto.
Qed.

Lemma reachable_identity_witness :
  vehicleId (self Sample.world_routed) = "A"%string
  /\ id (localInfo (self Sample.world_routed)) = "A"%string.
Proof.
  exact (reachable_identity Sample.externals "A" Sample.world_routed
           world_routed_reachable).
Defined.

(** X23. No public call of a routing instance records a message: in
    every reachable state the replay cache of its crypto module is empty,
    and [detectReplay] returns false for every input, however often it is
    asked, leaving the instance as it was. *)
Theorem reachable_detectReplay_false E (vid : string) (w : World)
    (message : bytes) :
  reachable E vid w ->
  messageHistory (cryptoModule (self w)) = []
  /\ detectReplay message w = Returns false w.
Proof.
  intros H. apply reachable_settled in H.
  destruct H as (_ & _ & H3 & _).
  split; [exact H3|].
  unfold detectReplay, mbind, M_bind, isReplayMessage. simpl.
  rewrite H3. reflexivity.
Qed.

Lemma reachable_detectReplay_false_witness :
  messageHistory (cryptoModule (self Sample.world_routed)) = []
  /\ detectReplay [116; 101; 115; 116] Sample.world_routed
     = Returns false Sample.world_routed.
Proof.
  exact (reachable_detectReplay_false Sample.externals "A" Sample.world_routed
           [116; 101; 115; 116] world_routed_reachable).
Defined.

(** X24. No vehicle with a non-empty id ever enters the neighbor table:
    the beacon handling stores what it learns under the empty id. In
    every reachable state, for every non-empty id, the neighbor table has
    no entry, no reported position is flagged as falsified, and the trust
    computed is the stored score limited to
    [MIN_TRUST_SCORE, MAX_TRUST_SCORE] (MIN_TRUST_SCORE without one). *)
Theorem reachable_neighbors E (vid : string) (w : World) (k : string)
    (reportedPos : Position) :
  reachable E vid w ->
  k <> ""%string ->
  neighborTable (self w) !! k = None
  /\ detectPositionFalsification (self w) k reportedPos = false
  /\ calculateTrust (self w) k
     = match trustScores (self w) !! k with
       | Some score => clamp score MIN_TRUST_SCORE MAX_TRUST_SCORE
       | None => MIN_TRUST_SCORE
       end.
Proof.
  intros H Hk. apply reachable_settled in H.
  destruct H as (_ & _ & _ & _ & _ & _ & H7).
  specialize (H7 k Hk).
  unfold detectPositionFalsification, calculateTrust. rewrite H7.
  repeat split.
Qed.

Lemma reachable_neighbors_witness :
  neighborTable (self Sample.world_routed) !! "B" = None
  /\ detectPositionFalsification (self Sample.world_routed) "B"
       (Sample.along_x 10000 Sample.now_ticks) = false
  /\ calculateTrust (self Sample.world_routed) "B"
     = match trustScores (self Sample.world_routed) !! "B" with
       | Some score => clamp score MIN_TRUST_SCORE MAX_TRUST_SCORE
       | None => MIN_TRUST_SCORE
       end.
Proof.
  apply (reachable_neighbors Sample.externals "A" Sample.world_routed "B"
           (Sample.along_x 10000 Sample.now_ticks) world_routed_reachable).
  discriminate.
Defined.

(** X25. A routing instance never has a certificate: in every reachable
    state the messages its crypto module creates carry no sender
    certificate, and, when [d2i_PUBKEY] fails on the empty buffer, every
    such message is rejected by [verifySecureMessage] of every module at
    every time. *)
Theorem reachable_creates_unverifiable E (vid : string) (w : World)
    (now n : Z) (p : bytes) (m : SecureMessage) (n' : Z) :
  reachable E vid w ->
  d2i_PUBKEY E [] = None ->
  createSecureMessage E now (cryptoModule (self w)) n p = (Some m, n') ->
  senderCert m = []
  /\ (forall now' c', verifySecureMessage E now' m c' = (false, c')).
Proof.
  intros H Hparse Hm. apply reachable_settled in H.
  destruct H as (_ & _ & _ & _ & H5 & _).
  pose proof (createSecureMessage_no_certificate E now _ n p m n' H5 Hm) as Hc.
  split; [exact Hc|].
  apply verifySecureMessage_no_key; assumption.
Qed.

Lemma reachable_creates_unverifiable_witness :
  senderCert
    {| payload := [116]; signature := 7 :: signedBytes [116] Sample.now_ms 1;
       timestamp := Sample.now_ms; sequenceNumber := 1; senderCert := [] |} = []
  /\ (forall now' c',
        verifySecureMessage Sample.externals now'
          {| payload := [116]; signature := 7 :: signedBytes [116] Sample.now_ms 1;
             timestamp := Sample.now_ms; sequenceNumber := 1; senderCert := [] |}
          c' = (false, c')).
Proof.
  exact (reachable_creates_unverifiable Sample.externals "A" Sample.world_routed
           Sample.now_ms 0 [116] _ 1 world_routed_reachable eq_refl eq_refl).
Defined.
